(** * Steganographer: LSB embedding of ASCII text in a pixel grid

    A shallow embedding of [steganographer.py] (Python 2) and the proofs of
    its specification.  The Python functions [message_to_bits], [encode] and
    [decode] are translated statement by statement into a small monad that
    carries what the program can observe or change:

    - the heap of list objects (Python lists are mutable objects with an
      identity; [encode] builds its result by appending to lists it
      allocates),
    - the exceptions that indexing and the bit codec can raise,
    - a log of the bit groups handed to [bits.bits_to_char].

    The helper module [bits] is imported by the program but its source is
    not part of the repository; its four functions are modelled from the
    specification (section 4.1).

    The rest of the program is embedded as well: [bits_to_message] and
    [round_trip], and the command-line layer ([open_image],
    [get_user_input], [make_output_filename], [main]) as computations on a
    process that also has image files and a standard output.  The image
    files are read and written by the module [SimpleImage], which is not in
    the repository either and is modelled from section 6 of the
    specification; [argparse] is not modelled, the namespace it returns is
    the input of [main]. *)

From Stdlib Require Import ZArith Ascii String.
From stdpp Require Import gmap strings list fin_maps.
From Equations Require Import Equations.

Local Open Scope Z_scope.
Local Open Scope nat_scope.

(** ** Python values *)

(** A Python 2 [str] is a sequence of 8-bit characters. *)
Abbreviation str := (list ascii).

(** String literals, for constants and examples. *)
Definition lit (s : string) : str := list_ascii_of_string s.

(** A pixel is a tuple of channel intensities; tuples are immutable values. *)
Abbreviation pixel := (list Z).

(** The contents of an image, as a value: rows of pixels of intensities. *)
Abbreviation grid := (list (list (list Z))).

(** Heap locations: the identity of a Python list object. *)
Abbreviation loc := positive.

(** The list objects the program handles: an image is a list of (references
    to) rows, a row is a list of pixel tuples. *)
Inductive obj :=
| ImageList (rows : list loc)
| RowList (pixels : list pixel).

(** The second argument of [bits.set_bit] as the program passes it: a
    one-character string taken from the bit-string, or the integer literal
    [0]. *)
Inductive bitarg :=
| BitChr (c : ascii)
| BitInt (n : Z).

(** Exceptions. *)
Inductive exn :=
| IndexError
| TypeError
| MalformedBitGroup.

Inductive result (A : Type) :=
| Ok (a : A)
| Raise (e : exn).
Arguments Ok {A} a.
Arguments Raise {A} e.

(** ** Constants of the program *)

Definition BYTE_LENGTH : nat := 8.
Definition ZERO_BYTE : str := lit "00000000".

(** ** The bit codec (module [bits]) *)

Module bits.

Definition digit (b : bool) : ascii := if b then "1"%char else "0"%char.

Definition bit_of_digit (c : ascii) : option bool :=
  if decide (c = "0"%char) then Some false
  else if decide (c = "1"%char) then Some true
  else None.

(** Modelled from the spec: [bits.char_to_bits] is not in the repository.
    "Given a single ASCII character, returns its 8-bit binary
    representation, most-significant bit first, zero-padded to exactly 8
    digits."  A character of a Python 2 [str] has a code below 256, so the
    function is total here. *)
Definition char_to_bits (c : ascii) : str :=
  let 'Ascii b0 b1 b2 b3 b4 b5 b6 b7 := c in
  [digit b7; digit b6; digit b5; digit b4;
   digit b3; digit b2; digit b1; digit b0].

(** Modelled from the spec: [bits.bits_to_char] is not in the repository.
    "Given an 8-digit bit-string, returns the character whose code equals
    the value of that string interpreted as unsigned binary.  Requires
    exactly 8 digits; behavior on malformed input (wrong length, non-binary
    characters) is an error condition." *)
Definition bits_to_char (b : str) : result ascii :=
  match b with
  | [d7; d6; d5; d4; d3; d2; d1; d0] =>
      match bit_of_digit d7, bit_of_digit d6, bit_of_digit d5,
            bit_of_digit d4, bit_of_digit d3, bit_of_digit d2,
            bit_of_digit d1, bit_of_digit d0 with
      | Some b7, Some b6, Some b5, Some b4,
        Some b3, Some b2, Some b1, Some b0 =>
          Ok (Ascii b0 b1 b2 b3 b4 b5 b6 b7)
      | _, _, _, _, _, _, _, _ => Raise MalformedBitGroup
      end
  | _ => Raise MalformedBitGroup
  end.

(** Modelled from the spec: [bits.get_bit] is not in the repository.
    "Returns the bit of integer n at zero-indexed position pos (position
    0 = least significant bit), as a single binary digit."  The program
    concatenates the result to a string, so the digit is a one-character
    string. *)
Definition get_bit (n : Z) (pos : Z) : str := [digit (Z.testbit n pos)].

(** Which bit a [set_bit] argument denotes: the digit ['1'] and the integer
    [1] stand for a set bit, ['0'] and [0] for a cleared one. *)
Definition bit_is_one (b : bitarg) : bool :=
  match b with
  | BitChr c => bool_decide (c = "1"%char)
  | BitInt n => bool_decide (n = 1%Z)
  end.

(** Modelled from the spec: [bits.set_bit] is not in the repository.
    "Returns a new integer equal to n with the bit at position pos
    replaced by bit (0 or 1), all other bits unchanged."  Integers are
    Python's unbounded two's-complement integers. *)
Definition set_bit (n : Z) (bit : bitarg) (pos : Z) : Z :=
  if bit_is_one bit then Z.setbit n pos else Z.clearbit n pos.

End bits.

(** ** The monad of the program: heap, call log and exceptions *)

Record world := World {
  heap : gmap loc obj;
  codec_calls : list str   (* arguments of the calls to bits.bits_to_char *)
}.

Definition M (A : Type) : Type := world → result A * world.

Definition ret {A} (a : A) : M A := λ w, (Ok a, w).

Definition raise {A} (e : exn) : M A := λ w, (Raise e, w).

Definition bind {A B} (m : M A) (k : A → M B) : M B :=
  λ w, match m w with
       | (Ok a, w') => k a w'
       | (Raise e, w') => (Raise e, w')
       end.

Notation "'let!' x := m 'in' k" := (bind m (λ x, k))
  (at level 10, x pattern, m at level 100, k at level 200).

(** A [for] loop whose body does not leave the function. *)
Fixpoint for_each {A S} (l : list A) (body : A → S → M S) (s : S) : M S :=
  match l with
  | [] => ret s
  | x :: l' => let! s' := body x s in for_each l' body s'
  end.

(** A [for] loop whose body may execute [return r]. *)
Inductive ctl (S R : Type) :=
| Next (s : S)
| Return (r : R).
Arguments Next {S R} s.
Arguments Return {S R} r.

Fixpoint for_ret {A S R} (l : list A) (body : A → S → M (ctl S R)) (s : S)
  : M (ctl S R) :=
  match l with
  | [] => ret (Next s)
  | x :: l' =>
      let! c := body x s in
      match c with
      | Next s' => for_ret l' body s'
      | Return r => ret (Return r)
      end
  end.

(** *** Operations on list objects *)

(** A new list object.  The program creates empty lists only ([output = []],
    [output.append([])]); images that exist beforehand are built with the
    same operation.  The new object gets a location that is not in use. *)
Definition new_list (o : obj) : M loc :=
  λ w, let l := fresh (dom (heap w)) in
       (Ok l, World (<[l := o]> (heap w)) (codec_calls w)).

(** The items of an image list, for [for row in image].  The loop runs over
    the items found when it starts; the bodies of the loops of the program
    only write to lists allocated inside [encode], never to the list being
    traversed. *)
Definition image_items (l : loc) : M (list loc) :=
  λ w, match heap w !! l with
       | Some (ImageList rows) => (Ok rows, w)
       | _ => (Raise TypeError, w)
       end.

(** The items of a row list, for [for pixel in row]. *)
Definition row_items (l : loc) : M (list pixel) :=
  λ w, match heap w !! l with
       | Some (RowList pixels) => (Ok pixels, w)
       | _ => (Raise TypeError, w)
       end.

(** [output.append(r)] on an image list. *)
Definition append_row (l : loc) (r : loc) : M unit :=
  λ w, match heap w !! l with
       | Some (ImageList rows) =>
           (Ok (), World (<[l := ImageList (rows ++ [r])]> (heap w))
                         (codec_calls w))
       | _ => (Raise TypeError, w)
       end.

(** [output[i]] on an image list. *)
Definition image_index (l : loc) (i : nat) : M loc :=
  let! rows := image_items l in
  match rows !! i with
  | Some r => ret r
  | None => raise IndexError
  end.

(** [r.append(p)] on a row list. *)
Definition append_pixel (l : loc) (p : pixel) : M unit :=
  λ w, match heap w !! l with
       | Some (RowList pixels) =>
           (Ok (), World (<[l := RowList (pixels ++ [p])]> (heap w))
                         (codec_calls w))
       | _ => (Raise TypeError, w)
       end.

(** [s[i]] on a string. *)
Definition str_index (s : str) (i : nat) : M ascii :=
  match s !! i with
  | Some c => ret c
  | None => raise IndexError
  end.

(** [bits.bits_to_char(b)].  The argument of every call is recorded in the
    log, whether the call succeeds or raises. *)
Definition call_bits_to_char (b : str) : M ascii :=
  λ w, (bits.bits_to_char b, World (heap w) (codec_calls w ++ [b])).

(** [int(x)] on an integer, [tuple(l)] on a list of integers. *)
Definition int (x : Z) : Z := x.
Definition tuple (l : list Z) : pixel := l.

(** ** The program *)

(** [message_to_bits(text)]:
<<
    output = ''
    for char in text:
        output += bits.char_to_bits(char)
    return output
>> *)
Definition message_to_bits (text : str) : str :=
  fold_left (λ output char, output ++ bits.char_to_bits char) text [].

(** [encode(image, message)].  The three nested loops, innermost first.

    Body of [for intensity in pixel:]
<<
    if index < len(binarymsg):
        new_pixel.append(bits.set_bit(int(intensity), binarymsg[index], 0))
        index += 1
    else:
        new_pixel.append(bits.set_bit(int(intensity), 0, 0))
>> *)
Definition encode_intensity (binarymsg : str) (intensity : Z)
    (st : list Z * nat) : M (list Z * nat) :=
  let '(new_pixel, index) := st in
  if bool_decide (index < length binarymsg) then
    let! b := str_index binarymsg index in
    ret (new_pixel ++ [bits.set_bit (int intensity) (BitChr b) 0], index + 1)
  else
    ret (new_pixel ++ [bits.set_bit (int intensity) (BitInt 0) 0], index).

(** Body of [for pixel in row:]
<<
    new_pixel = []
    for intensity in pixel: ...
    output[current_row].append(tuple(new_pixel))
>> *)
Definition encode_pixel (binarymsg : str) (output : loc) (current_row : nat)
    (pixel : pixel) (index : nat) : M nat :=
  let new_pixel := [] in
  let! (new_pixel, index) :=
    for_each pixel (encode_intensity binarymsg) (new_pixel, index) in
  let! r := image_index output current_row in
  let! _ := append_pixel r (tuple new_pixel) in
  ret index.

(** Body of [for row in image:]
<<
    output.append([])
    for pixel in row: ...
    current_row += 1
>> *)
Definition encode_row (binarymsg : str) (output : loc) (row : loc)
    (st : nat * nat) : M (nat * nat) :=
  let '(index, current_row) := st in
  let! r := new_list (RowList []) in
  let! _ := append_row output r in
  let! pixels := row_items row in
  let! index :=
    for_each pixels (encode_pixel binarymsg output current_row) index in
  ret (index, current_row + 1).

(**
<<
    binarymsg = message_to_bits(message)
    output = []
    index = 0
    current_row = 0
    for row in image: ...
    return output
>> *)
Definition encode (image : loc) (message : str) : M loc :=
  let binarymsg := message_to_bits message in
  let! output := new_list (ImageList []) in
  let index := 0 in
  let current_row := 0 in
  let! rows := image_items image in
  let! _ := for_each rows (encode_row binarymsg output) (index, current_row) in
  ret output.

(** [decode(image)].

    Body of [for num in pixel:]
<<
    curr_chunk += bits.get_bit(num, 0)
    if len(curr_chunk) == BYTE_LENGTH:
        if curr_chunk == ZERO_BYTE:
            return output
        else:
            output += bits.bits_to_char(curr_chunk)
            curr_chunk = ''
>> *)
Definition decode_num (num : Z) (st : str * str) : M (ctl (str * str) str) :=
  let '(output, curr_chunk) := st in
  let curr_chunk := curr_chunk ++ bits.get_bit num 0 in
  if bool_decide (length curr_chunk = BYTE_LENGTH) then
    if bool_decide (curr_chunk = ZERO_BYTE) then
      ret (Return output)
    else
      let! c := call_bits_to_char curr_chunk in
      ret (Next (output ++ [c], []))
  else
    ret (Next (output, curr_chunk)).

(** Body of [for pixel in row:] and of [for row in image:]. *)
Definition decode_pixel (pixel : pixel) (st : str * str)
  : M (ctl (str * str) str) :=
  for_ret pixel decode_num st.

Definition decode_row (row : loc) (st : str * str)
  : M (ctl (str * str) str) :=
  let! pixels := row_items row in
  for_ret pixels decode_pixel st.

(**
<<
    output = ''
    curr_chunk = ''
    for row in image: ...
    return output
>> *)
Definition decode (image : loc) : M str :=
  let output := [] in
  let curr_chunk := [] in
  let! rows := image_items image in
  let! c := for_ret rows decode_row (output, curr_chunk) in
  match c with
  | Return output => ret output
  | Next (output, _) => ret output
  end.

(** ** Images in the heap *)

(** The pixels of the row object at [l]. *)
Definition row_at (h : gmap loc obj) (l : loc) : option (list pixel) :=
  match h !! l with
  | Some (RowList pixels) => Some pixels
  | _ => None
  end.

(** The contents of the image object at [l]. *)
Definition grid_at (h : gmap loc obj) (l : loc) : option grid :=
  match h !! l with
  | Some (ImageList rows) => mapM (row_at h) rows
  | _ => None
  end.

(** The channel slots of a grid in traversal order: row by row, pixel by
    pixel, channel by channel. *)
Definition slots (g : grid) : list Z := mjoin (mjoin g).

(** Total channel-slot capacity. *)
Definition capacity (g : grid) : nat := length (slots g).

(** The least significant bit of a channel value, as a binary digit. *)
Definition lsb (v : Z) : ascii := bits.digit (Z.testbit v 0).

(** The LSB stream of a grid. *)
Definition lsb_stream (g : grid) : str := lsb <$> slots g.

(** The aligned 8-bit group number [j] of a bit-string. *)
Definition group (j : nat) (s : str) : str := take 8 (drop (8 * j) s).

(** An ASCII character has a code below 128; NUL is the character 0. *)
Definition is_ascii (c : ascii) : Prop := (N_of_ascii c < 128)%N.
Definition NUL : ascii := "000"%char.

(** Building the list objects of a grid in an empty heap, as reading an
    image file does. *)
Definition alloc_grid (g : grid) : M loc :=
  let! rows := for_each g (λ row rows,
                 let! r := new_list (RowList row) in ret (rows ++ [r])) [] in
  new_list (ImageList rows).

Definition empty_world : world := World ∅ [].

(** ** Vocabulary of the specification *)

(** A binary digit. *)
Definition is_bit (c : ascii) : Prop := c = "0"%char ∨ c = "1"%char.

(** A string of exactly 8 binary digits: what [bits_to_char] accepts. *)
Definition bit_group (b : str) : Prop := length b = 8 ∧ Forall is_bit b.

(** *** What [encode] writes: the embedding of a bit-string in a grid *)

(** Slot number [i] of the traversal receives bit [i] of the bit-string, or
    0 once the bit-string is used up. *)
Definition embed_slot (bs : str) (i : nat) (v : Z) : Z :=
  match bs !! i with
  | Some b => bits.set_bit v (BitChr b) 0
  | None => bits.set_bit v (BitInt 0) 0
  end.

Definition embed_pixel (bs : str) (i : nat) (p : pixel) : pixel :=
  imap (λ k, embed_slot bs (i + k)) p.

Fixpoint embed_row (bs : str) (i : nat) (r : list pixel) : list pixel :=
  match r with
  | [] => []
  | p :: r' => embed_pixel bs i p :: embed_row bs (i + length p) r'
  end.

Fixpoint embed_grid (bs : str) (i : nat) (g : grid) : grid :=
  match g with
  | [] => []
  | r :: g' => embed_row bs i r :: embed_grid bs (i + length (mjoin r)) g'
  end.

(** *** What [decode] reads: aligned groups of the LSB stream *)

(** The character of a well-formed bit group. *)
Definition byte_char (b : str) : ascii :=
  match bits.bits_to_char b with
  | Ok c => c
  | Raise _ => NUL
  end.

(** The first [j] aligned groups of a bit-string, and their characters. *)
Definition groups (j : nat) (s : str) : list str :=
  (λ i, group i s) <$> seq 0 j.

Definition chars (j : nat) (s : str) : str := byte_char <$> groups j s.

(** Where [decode] stops: [j] is the number of the first aligned group
    that is the terminator, or the number of complete groups when there is
    none. *)
Definition stops_at (j : nat) (s : str) : Prop :=
  8 * j ≤ length s ∧
  (∀ i, i < j → group i s ≠ ZERO_BYTE) ∧
  (8 * j + 8 ≤ length s → group j s = ZERO_BYTE).

(** ** Example images *)

Module Examples.

(** The world after reading a grid into an empty heap, and the image
    object in it. *)
Definition world_of (g : grid) : world := (alloc_grid g empty_world).2.

Definition image_of (g : grid) : loc :=
  match (alloc_grid g empty_world).1 with
  | Ok l => l
  | Raise _ => 1%positive
  end.

(** A 3 x 3 RGB image: 27 channel slots. *)
Definition cover : grid :=
  [ [ [10; 11; 12]; [13; 14; 15]; [254; 255; 0] ];
    [ [1; 2; 3]; [4; 5; 6]; [7; 8; 9] ];
    [ [21; 22; 23]; [24; 25; 26]; [27; 28; 29] ] ]%Z.

(** A 1 x 3 RGB image: 9 channel slots, all odd. *)
Definition odd_strip : grid := [ [ [1; 3; 5]; [7; 9; 11]; [13; 15; 17] ] ]%Z.

(** A 2 x 2 RGBA image whose LSB stream is 01000001 00000000. *)
Definition letter_a : grid :=
  [ [ [0; 1; 0; 0]; [0; 0; 0; 1] ]; [ [8; 8; 8; 8]; [6; 6; 6; 6] ] ]%Z.

(** A 2 x 2 RGBA image with even values only: two all-zero groups. *)
Definition all_even : grid :=
  [ [ [0; 2; 4; 6]; [8; 10; 12; 14] ]; [ [0; 0; 0; 0]; [2; 2; 2; 2] ] ]%Z.

End Examples.

Import Examples.

(** ** The rest of the program: [bits_to_message] and [round_trip] *)

(** [s[i:j]] for indices that are not negative. *)
Definition slice (s : str) (i j : nat) : str := take (j - i) (drop i s).

(** The [while] loop of [bits_to_message].  The program assigns
    [currByte = message_bits[index:index + BYTE_LENGTH]] before the loop and
    again at the end of its body; here the same slice is taken at the head of
    every iteration.  Each iteration moves [index] 8 characters forward in a
    string that has at least 8 more, which is why the loop ends.
<<
    while len(currByte) >= BYTE_LENGTH:
        if currByte == ZERO_BYTE:
            return output
        else:
            output += bits.bits_to_char(currByte)
        index += BYTE_LENGTH
        currByte = message_bits[index:index + BYTE_LENGTH]
    return output
>> *)
Equations? bits_to_message_loop (message_bits output : str) (index : nat)
  : M str by wf (length message_bits - index) lt :=
bits_to_message_loop message_bits output index
  with decide (BYTE_LENGTH ≤
               length (slice message_bits index (index + BYTE_LENGTH))) := {
  | left Hlen =>
      if bool_decide
           (slice message_bits index (index + BYTE_LENGTH) = ZERO_BYTE)
      then ret output
      else
        let! c :=
          call_bits_to_char
            (slice message_bits index (index + BYTE_LENGTH)) in
        bits_to_message_loop message_bits (output ++ [c])
          (index + BYTE_LENGTH)
  | right _ => ret output }.
Proof.
  unfold slice, BYTE_LENGTH in *.
  rewrite length_take, length_drop in Hlen. lia.
Qed.

(** [bits_to_message(message_bits)]:
<<
    output = ''
    index = 0
    currByte = message_bits[index:index + BYTE_LENGTH]
    while ...
>> *)
Definition bits_to_message (message_bits : str) : M str :=
  let output := [] in
  let index := 0 in
  bits_to_message_loop message_bits output index.

(** [round_trip(message)]:
<<
    return bits_to_message(message_to_bits(message)) == message
>> *)
Definition round_trip (message : str) : M bool :=
  let! decoded := bits_to_message (message_to_bits message) in
  ret (bool_decide (decoded = message)).

(** *** Vocabulary for these functions *)

(** The part of a message before its first NUL character (all of it when
    there is none). *)
Fixpoint before_nul (m : str) : str :=
  match m with
  | [] => []
  | c :: m' => if decide (c = NUL) then [] else c :: before_nul m'
  end.

(** Reading a list of 8-character groups the way both decoders do: stop at
    the terminator, otherwise convert the group and go on. *)
Fixpoint read_groups (gs : list str) (output : str) : M str :=
  match gs with
  | [] => ret output
  | b :: gs =>
      if bool_decide (b = ZERO_BYTE) then ret output
      else let! c := call_bits_to_char b in read_groups gs (output ++ [c])
  end.

(** ** The rest of the program: file names and the command line *)

(** *** Strings: slices from the end, lower case, [format] *)

(** [s[-n:]] and [s[:-n]] for a positive literal [n]: the last [n]
    characters (all of [s] when it is shorter) and what precedes them. *)
Definition str_last (n : nat) (s : str) : str := drop (length s - n) s.
Definition str_but_last (n : nat) (s : str) : str := take (length s - n) s.

(** [c.lower()] on one character: the letters A..Z (codes 65..90) move to
    a..z, every other 8-bit character is unchanged (the C locale). *)
Definition lower_char (c : ascii) : ascii :=
  let n := N_of_ascii c in
  if bool_decide (65 ≤ n ≤ 90)%N then ascii_of_N (n + 32) else c.

Definition lower (s : str) : str := lower_char <$> s.

(** [template.format(args)] for the templates of the program: the text is
    copied, [{}] is replaced by the next argument and [{N}] by argument
    number [N]; a missing argument raises IndexError.  Escapes ([{{]),
    conversions and format specifications do not occur in the program and are
    not modelled.  [field] holds the digits read since an opening brace. *)
Fixpoint format_go (template : str) (args : list str) (auto : nat)
    (field : option nat) (inside : bool) : result str :=
  match template with
  | [] => Ok []
  | c :: template' =>
      if inside then
        if bool_decide (c = "}"%char) then
          let n := default auto field in
          match args !! n with
          | Some a =>
              let auto' := match field with Some _ => auto | None => S auto end in
              match format_go template' args auto' None false with
              | Ok rest => Ok (a ++ rest)
              | Raise e => Raise e
              end
          | None => Raise IndexError
          end
        else
          match Ascii.is_nat c with
          | Some d =>
              format_go template' args auto
                (Some (10 * default 0 field + d)) true
          | None => Raise IndexError
          end
      else if bool_decide (c = "{"%char) then
        format_go template' args auto None true
      else
        match format_go template' args auto None false with
        | Ok rest => Ok (c :: rest)
        | Raise e => Raise e
        end
  end.

Definition format (template : str) (args : list str) : M str :=
  λ w, (format_go template args 0 None false, w).

(** *** The command-line program *)

(** The constants of the program that the functions below use. *)
Definition PNG : str := lit ".png".
Definition PNG_ERROR : str := lit "image provided is not in .png format".
Definition FNF_ERROR : str := lit "The file {} was not found".
Definition ENCODE_EXTENSION : str := lit "_encoded".
Definition DISPLAY_MESSAGE : str :=
  lit "The file {0} is encoded with the message:"
  ++ ["010"%char; "010"%char] ++ lit "{1}".
Definition ENCODE_OUT : str := lit "Encoded your message to {}".

(** A run of the program: the memory of the interpreter, the image files
    (by name, with their pixel contents) and the lines printed so far. *)
Record process := Process {
  mem : world;
  files : gmap str grid;
  stdout : list str
}.

(** How a computation of the program ends without a value: [sys.exit()],
    an IOError of the file system, or an exception of the codec. *)
Inductive failure :=
| SystemExit
| IOError
| Uncaught (e : exn).

Inductive outcome (A : Type) :=
| Returns (a : A)
| Fails (f : failure).
Arguments Returns {A} a.
Arguments Fails {A} f.

Definition IO (A : Type) : Type := process → outcome A * process.

Definition io_ret {A} (a : A) : IO A := λ p, (Returns a, p).

Definition io_bind {A B} (m : IO A) (k : A → IO B) : IO B :=
  λ p, match m p with
       | (Returns a, p') => k a p'
       | (Fails f, p') => (Fails f, p')
       end.

Notation "'io!' x := m 'in' k" := (io_bind m (λ x, k))
  (at level 10, x pattern, m at level 100, k at level 200).

(** A computation on the memory alone, inside a run. *)
Definition lift {A} (m : M A) : IO A :=
  λ p, match m (mem p) with
       | (Ok a, w) => (Returns a, Process w (files p) (stdout p))
       | (Raise e, w) => (Fails (Uncaught e), Process w (files p) (stdout p))
       end.

(** [print s]: the string goes to the standard output as one line. *)
Definition print (s : str) : IO unit :=
  λ p, (Returns (), Process (mem p) (files p) (stdout p ++ [s])).

(** [sys.exit()]. *)
Definition sys_exit {A} : IO A := λ p, (Fails SystemExit, p).

(** [try: body except IOError: handler]. *)
Definition try_except_IOError {A} (body handler : IO A) : IO A :=
  λ p, match body p with
       | (Fails IOError, p') => handler p'
       | r => r
       end.

(** [open(filename)]: the file object of an existing file, identified by
    its name; IOError when there is no such file. *)
Definition open (filename : str) : IO str :=
  λ p, match files p !! filename with
       | Some _ => (Returns filename, p)
       | None => (Fails IOError, p)
       end.

(** Modelled from the spec: [SimpleImage.read_image] is not in the
    repository.  "read(source) -> grid" (section 6): the pixel grid of the
    image file, as new list objects; the source is a file object or a file
    name. *)
Definition read_image (source : str) : IO loc :=
  λ p, match files p !! source with
       | Some g => lift (alloc_grid g) p
       | None => (Fails IOError, p)
       end.

(** Modelled from the spec: [SimpleImage.write_image] is not in the
    repository.  "write(grid, destination)" (section 6); the raw pixel
    values are kept bit for bit (section 1). *)
Definition write_image (image : loc) (filename : str) : IO unit :=
  λ p, match grid_at (heap (mem p)) image with
       | Some g =>
           (Returns (),
            Process (mem p) (<[filename := g]> (files p)) (stdout p))
       | None => (Fails (Uncaught TypeError), p)
       end.

(** The namespace that [argparse] builds from the command line: the
    positional argument [image] and the option [--encode], [None] when it is
    not given. *)
Record namespace := Namespace {
  args_image : str;
  args_encode : option str
}.

(** The truth value of [None], [False] or a string in a condition: only a
    string that is not empty is true. *)
Definition truthy (v : option str) : bool :=
  match v with
  | Some (_ :: _) => true
  | _ => false
  end.

(** [open_image(filename)]:
<<
    if filename[-4:].lower() != PNG:
        print PNG_ERROR
        sys.exit()
    try:
        image = read_image(open(filename))
    except IOError:
        print FNF_ERROR.format(filename)
        sys.exit()
    return image
>> *)
Definition open_image (filename : str) : IO loc :=
  io! _ :=
    (if bool_decide (lower (str_last 4 filename) ≠ PNG) then
       io! _ := print PNG_ERROR in
       sys_exit
     else io_ret ()) in
  io! image :=
    try_except_IOError
      (io! f := open filename in read_image f)
      (io! s := lift (format FNF_ERROR [filename]) in
       io! _ := print s in
       sys_exit) in
  io_ret image.

(** [get_user_input()]; [args] is the result of [process_commands()], and
    the message [False] of the program is [None].
<<
    args = process_commands()
    image = open_image(args.image)
    if args.encode:
        message = args.encode
    else:
        message = False
    return (image, message, args.image)
>> *)
Definition get_user_input (args : namespace) : IO (loc * option str * str) :=
  io! image := open_image (args_image args) in
  let message :=
    if truthy (args_encode args) then args_encode args else None in
  io_ret (image, message, args_image args).

(** [make_output_filename(filename)]:
<<
    return filename[:-4] + ENCODE_EXTENSION + PNG
>> *)
Definition make_output_filename (filename : str) : str :=
  str_but_last 4 filename ++ ENCODE_EXTENSION ++ PNG.

(** [main()]; where [message] is true it is a string, the one passed to
    [encode].
<<
    image, message, filename = get_user_input()
    if message:
        encoded_filename = make_output_filename(filename)
        write_image(encode(image, message), encoded_filename)
        print ENCODE_OUT.format(encoded_filename)
    else:
        print DISPLAY_MESSAGE.format(filename, decode(read_image(filename)))
>> *)
Definition main (args : namespace) : IO unit :=
  io! (image, message, filename) := get_user_input args in
  if truthy message then
    let encoded_filename := make_output_filename filename in
    io! encoded := lift (encode image (default [] message)) in
    io! _ := write_image encoded encoded_filename in
    io! s := lift (format ENCODE_OUT [encoded_filename]) in
    print s
  else
    io! source := read_image filename in
    io! decoded := lift (decode source) in
    io! s := lift (format DISPLAY_MESSAGE [filename; decoded]) in
    print s.

(** A run that starts with one image file, in an empty memory and with
    nothing printed yet. *)
Definition demo_process : process :=
  Process empty_world {[ lit "cat.PNG" := cover ]} [].

(** * Proofs *)

(** ** The bit codec *)

Lemma digit_is_bit b : is_bit (bits.digit b).
Proof. destruct b; [right | left]; reflexivity. Qed.

Lemma bit_of_digit_digit b : bits.bit_of_digit (bits.digit b) = Some b.
Proof. destruct b; reflexivity. Qed.

Lemma is_bit_digit c : is_bit c → ∃ b, c = bits.digit b.
Proof. intros [-> | ->]; [exists false | exists true]; reflexivity. Qed.

Lemma char_to_bits_length c : length (bits.char_to_bits c) = 8.
Proof. destruct c; reflexivity. Qed.

Lemma char_to_bits_is_bit c : Forall is_bit (bits.char_to_bits c).
Proof.
  destruct c. unfold bits.char_to_bits.
  repeat (apply Forall_cons_2; [apply digit_is_bit|]). apply Forall_nil_2.
Qed.

Lemma bits_to_char_to_bits c : bits.bits_to_char (bits.char_to_bits c) = Ok c.
Proof.
  destruct c. unfold bits.char_to_bits, bits.bits_to_char.
  rewrite !bit_of_digit_digit. reflexivity.
Qed.

Lemma char_to_bits_zero c : bits.char_to_bits c = ZERO_BYTE → c = NUL.
Proof.
  intros H. apply (f_equal bits.bits_to_char) in H.
  rewrite bits_to_char_to_bits in H. vm_compute in H. unfold NUL. congruence.
Qed.

Lemma bits_to_char_ok b : bit_group b → ∃ c, bits.bits_to_char b = Ok c.
Proof.
  intros [Hlen Hbits].
  do 8 (destruct b as [|? b]; [discriminate Hlen|]).
  destruct b; [|discriminate Hlen].
  repeat match goal with
         | H : Forall _ (_ :: _) |- _ =>
             apply Forall_cons in H as [[? ->]%is_bit_digit H]
         end.
  unfold bits.bits_to_char. rewrite !bit_of_digit_digit. eauto.
Qed.

Lemma bit_of_digit_is_bit d b : bits.bit_of_digit d = Some b → is_bit d.
Proof.
  unfold bits.bit_of_digit, is_bit. intros H.
  repeat case_decide; [left | right | discriminate H]; assumption.
Qed.

Lemma bits_to_char_ok_inv b c : bits.bits_to_char b = Ok c → bit_group b.
Proof.
  unfold bits.bits_to_char. intros H.
  destruct b as [|d7 [|d6 [|d5 [|d4 [|d3 [|d2 [|d1 [|d0 [|? ?]]]]]]]]];
    try discriminate H.
  destruct (bits.bit_of_digit d7) eqn:E7; [|discriminate H].
  destruct (bits.bit_of_digit d6) eqn:E6; [|discriminate H].
  destruct (bits.bit_of_digit d5) eqn:E5; [|discriminate H].
  destruct (bits.bit_of_digit d4) eqn:E4; [|discriminate H].
  destruct (bits.bit_of_digit d3) eqn:E3; [|discriminate H].
  destruct (bits.bit_of_digit d2) eqn:E2; [|discriminate H].
  destruct (bits.bit_of_digit d1) eqn:E1; [|discriminate H].
  destruct (bits.bit_of_digit d0) eqn:E0; [|discriminate H].
  split; [reflexivity|].
  repeat (apply Forall_cons_2; [eapply bit_of_digit_is_bit; eassumption|]).
  apply Forall_nil_2.
Qed.

Lemma get_bit_lsb v : bits.get_bit v 0 = [lsb v].
Proof. reflexivity. Qed.

Lemma set_bit_testbit n b :
  Z.testbit (bits.set_bit n b 0) 0 = bits.bit_is_one b.
Proof.
  unfold bits.set_bit. destruct (bits.bit_is_one b).
  - apply Z.setbit_eq. lia.
  - apply Z.clearbit_eq.
Qed.

Lemma set_bit_shiftr n b : (bits.set_bit n b 0 ≫ 1 = n ≫ 1)%Z.
Proof.
  apply Z.bits_inj'. intros i Hi. rewrite !Z.shiftr_spec by lia.
  unfold bits.set_bit. destruct (bits.bit_is_one b).
  - apply Z.setbit_neq; lia.
  - apply Z.clearbit_neq. lia.
Qed.

Lemma lsb_set_bit_chr n c : is_bit c → lsb (bits.set_bit n (BitChr c) 0) = c.
Proof.
  intros Hc. unfold lsb. rewrite set_bit_testbit.
  destruct Hc as [-> | ->]; reflexivity.
Qed.

Lemma lsb_set_bit_zero n : lsb (bits.set_bit n (BitInt 0) 0) = "0"%char.
Proof. unfold lsb. rewrite set_bit_testbit. reflexivity. Qed.

Lemma lsb_zero v : lsb v = "0"%char ↔ Z.testbit v 0 = false.
Proof. unfold lsb. destruct (Z.testbit v 0); simpl; split; congruence. Qed.

(** ** Loops *)

Lemma for_each_cons {A S} (body : A → S → M S) x l s w :
  for_each (x :: l) body s w =
  match body x s w with
  | (Ok s', w') => for_each l body s' w'
  | (Raise e, w') => (Raise e, w')
  end.
Proof. reflexivity. Qed.

Lemma for_ret_cons {A S R} (body : A → S → M (ctl S R)) x l s w :
  for_ret (x :: l) body s w =
  match body x s w with
  | (Ok (Next s'), w') => for_ret l body s' w'
  | (Ok (Return r), w') => (Ok (Return r), w')
  | (Raise e, w') => (Raise e, w')
  end.
Proof.
  simpl. unfold bind. destruct (body x s w) as [[[?|?]|?] ?]; reflexivity.
Qed.

Lemma for_ret_app {A S R} (body : A → S → M (ctl S R)) l1 l2 s w :
  for_ret (l1 ++ l2) body s w =
  (let! c := for_ret l1 body s in
   match c with
   | Next s' => for_ret l2 body s'
   | Return r => ret (Return r)
   end) w.
Proof.
  revert s w. induction l1 as [|x l1 IH]; intros s w; [reflexivity|].
  simpl. unfold bind in *.
  destruct (body x s w) as [[[s'|r]|e] w']; [apply IH | reflexivity..].
Qed.

(** ** The loops of [encode] *)

Section encode_loops.
Variable bs : str.
Local Abbreviation len := (length bs).

Lemma encode_intensity_bit v acc i b w :
  bs !! i = Some b →
  encode_intensity bs v (acc, i) w =
  (Ok (acc ++ [bits.set_bit v (BitChr b) 0], i + 1), w).
Proof.
  intros Hb. unfold encode_intensity.
  rewrite bool_decide_eq_true_2 by (by eapply lookup_lt_Some).
  unfold bind, str_index. rewrite Hb. reflexivity.
Qed.

Lemma encode_intensity_zero v acc w :
  encode_intensity bs v (acc, len) w =
  (Ok (acc ++ [bits.set_bit v (BitInt 0) 0], len), w).
Proof.
  unfold encode_intensity. rewrite bool_decide_eq_false_2 by lia.
  reflexivity.
Qed.

(** The variable [index] of the program is the slot number, capped at the
    length of the bit-string. *)
Lemma encode_intensity_loop (p : pixel) acc i w :
  for_each p (encode_intensity bs) (acc, i `min` len) w =
  (Ok (acc ++ embed_pixel bs i p, (i + length p) `min` len), w).
Proof.
  revert acc i. induction p as [|v p IH]; intros acc i.
  - simpl. unfold ret. rewrite app_nil_r, Nat.add_0_r. reflexivity.
  - rewrite for_each_cons. unfold embed_pixel.
    rewrite imap_cons, Nat.add_0_r. unfold embed_slot at 1.
    destruct (bs !! i) as [b|] eqn:Hb.
    + apply lookup_lt_Some in Hb as Hi.
      replace (i `min` len) with i by lia.
      rewrite (encode_intensity_bit _ _ _ b) by done.
      replace (i + 1) with (S i `min` len) by lia.
      rewrite IH, <- app_assoc. simpl.
      replace (imap ((λ k, embed_slot bs (i + k)) ∘ S) p)
        with (embed_pixel bs (S i) p)
        by (apply imap_ext; intros k x _; simpl; f_equal; lia).
      replace (i + S (length p)) with (S (i + length p)) by lia.
      reflexivity.
    + apply lookup_ge_None in Hb as Hi.
      replace (i `min` len) with len by lia.
      rewrite encode_intensity_zero.
      replace len with (S i `min` len) at 1 by lia.
      rewrite IH, <- app_assoc. simpl.
      replace (imap ((λ k, embed_slot bs (i + k)) ∘ S) p)
        with (embed_pixel bs (S i) p)
        by (apply imap_ext; intros k x _; simpl; f_equal; lia).
      replace (i + S (length p)) with (S (i + length p)) by lia.
      reflexivity.
Qed.

Variables (out r : loc) (rls : list loc) (cr : nat).
Hypothesis Hcr : rls !! cr = Some r.

Lemma encode_pixel_run (p : pixel) acc i h c :
  h !! out = Some (ImageList rls) →
  h !! r = Some (RowList acc) →
  encode_pixel bs out cr p (i `min` len) (World h c) =
  (Ok ((i + length p) `min` len),
   World (<[r := RowList (acc ++ [embed_pixel bs i p])]> h) c).
Proof.
  intros Hout Hr. unfold encode_pixel, bind.
  rewrite encode_intensity_loop. simpl.
  unfold image_index, bind, image_items. simpl. rewrite Hout, Hcr.
  unfold ret, append_pixel. simpl. rewrite Hr. reflexivity.
Qed.

Lemma encode_pixel_loop (ps : list pixel) acc i h c :
  h !! out = Some (ImageList rls) →
  h !! r = Some (RowList acc) →
  for_each ps (encode_pixel bs out cr) (i `min` len) (World h c) =
  (Ok ((i + length (mjoin ps)) `min` len),
   World (<[r := RowList (acc ++ embed_row bs i ps)]> h) c).
Proof.
  revert acc i h. induction ps as [|p ps IH]; intros acc i h Hout Hr.
  - simpl. unfold ret. rewrite app_nil_r, Nat.add_0_r, insert_id by done.
    reflexivity.
  - simpl. unfold bind. rewrite (encode_pixel_run p acc) by done.
    assert (r ≠ out) as Hne by congruence.
    rewrite (IH (acc ++ [embed_pixel bs i p])).
    + rewrite insert_insert_eq, <- app_assoc, length_app, Nat.add_assoc.
      reflexivity.
    + rewrite lookup_insert_ne; done.
    + apply lookup_insert_eq.
Qed.
End encode_loops.

Lemma row_at_insert_ne h k o l : k ≠ l → row_at (<[k := o]> h) l = row_at h l.
Proof. intros Hne. unfold row_at. rewrite lookup_insert_ne; done. Qed.

Lemma row_at_insert_eq h k ps : row_at (<[k := RowList ps]> h) k = Some ps.
Proof. unfold row_at. rewrite lookup_insert_eq. reflexivity. Qed.

Lemma row_at_Some h l ps : row_at h l = Some ps ↔ h !! l = Some (RowList ps).
Proof.
  unfold row_at. destruct (h !! l) as [[?|?]|]; split; congruence.
Qed.

Lemma fresh_lookup (h : gmap loc obj) : h !! fresh (dom h) = None.
Proof. apply not_elem_of_dom, is_fresh. Qed.

Section encode_rows.
Variables (bs : str) (out : loc).
Local Abbreviation len := (length bs).

Lemma encode_row_run row pixels rls i h c :
  h !! out = Some (ImageList rls) →
  row_at h row = Some pixels →
  encode_row bs out row (i `min` len, length rls) (World h c) =
  (Ok ((i + length (mjoin pixels)) `min` len, length rls + 1),
   World (<[fresh (dom h) := RowList (embed_row bs i pixels)]>
            (<[out := ImageList (rls ++ [fresh (dom h)])]> h)) c).
Proof.
  intros Hout Hrow%row_at_Some.
  pose proof (fresh_lookup h) as Hfresh.
  set (r := fresh (dom h)) in *.
  assert (r ≠ out) as Hr by congruence.
  assert (r ≠ row) as Hrr by congruence.
  assert (out ≠ row) as Hor by congruence.
  unfold encode_row, bind, new_list, append_row. simpl. fold r.
  rewrite lookup_insert_ne, Hout by done.
  unfold row_items. simpl.
  rewrite !lookup_insert_ne, Hrow by done.
  assert ((rls ++ [r]) !! length rls = Some r) as Hcr.
  { rewrite lookup_app_r, Nat.sub_diag by lia. reflexivity. }
  rewrite (encode_pixel_loop bs out r (rls ++ [r]) (length rls) Hcr pixels []).
  - simpl. unfold ret. f_equal. f_equal.
    rewrite (insert_insert_ne _ out r), insert_insert_eq by done.
    reflexivity.
  - apply lookup_insert_eq.
  - rewrite lookup_insert_ne by done. apply lookup_insert_eq.
Qed.

Lemma encode_row_loop rows : ∀ g rls G i h c,
  h !! out = Some (ImageList rls) →
  Forall2 (λ l ps, row_at h l = Some ps) rows g →
  Forall2 (λ l ps, row_at h l = Some ps) rls G →
  ∃ h' rls' st,
    for_each rows (encode_row bs out) (i `min` len, length rls) (World h c)
      = (Ok st, World h' c) ∧
    h' !! out = Some (ImageList rls') ∧
    Forall2 (λ l ps, row_at h' l = Some ps) rls' (G ++ embed_grid bs i g) ∧
    (∀ l, l ≠ out → is_Some (h !! l) → h' !! l = h !! l) ∧
    Forall (λ l, l ∈ rls ∨ h !! l = None) rls'.
Proof.
  induction rows as [|row rows IH]; intros g rls G i h c Hout Hrows Hrls.
  - apply Forall2_nil_inv_l in Hrows as ->. simpl. rewrite app_nil_r.
    exists h, rls, (i `min` len, length rls). split_and!; [done..|].
    apply Forall_forall. auto.
  - apply Forall2_cons_inv_l in Hrows as (ps & g' & Hrow & Hrows & ->).
    rewrite for_each_cons, (encode_row_run row ps) by done.
    pose proof (fresh_lookup h) as Hfresh.
    set (r := fresh (dom h)) in *.
    set (h2 := <[r := _]> _).
    assert (∀ l ps, row_at h l = Some ps → row_at h2 l = Some ps) as Hkeep.
    { intros l qs Hl. pose proof Hl as Hl'%row_at_Some. unfold h2.
      rewrite !row_at_insert_ne; [done|congruence..]. }
    destruct (IH g' (rls ++ [r]) (G ++ [embed_row bs i ps])
                (i + length (mjoin ps)) h2 c)
      as (h' & rls' & st & Hrun & Hout' & Hgrid & Hframe & Hnew).
    + unfold h2. rewrite lookup_insert_ne by congruence.
      apply lookup_insert_eq.
    + eapply Forall2_impl; [exact Hrows | eauto].
    + apply Forall2_app.
      * eapply Forall2_impl; [exact Hrls | eauto].
      * repeat constructor. apply row_at_insert_eq.
    + rewrite length_app in Hrun. simpl in Hrun.
      exists h', rls', st. split_and!; [done..| | |].
      * simpl. rewrite <- app_assoc in Hgrid. exact Hgrid.
      * intros l Hl Hsome. rewrite Hframe.
        -- unfold h2. rewrite !lookup_insert_ne; [done..|].
           intros <-. rewrite Hfresh in Hsome. by destruct Hsome.
        -- done.
        -- unfold h2. destruct (decide (r = l)) as [<-|Hne].
           ++ rewrite lookup_insert_eq. eauto.
           ++ rewrite !lookup_insert_ne by done. done.
      * eapply Forall_impl; [exact Hnew|]. intros l [Hin|Hnone].
        -- apply elem_of_app in Hin as [Hin|Hin%list_elem_of_singleton];
             [by left|right; congruence].
        -- right. unfold h2 in Hnone.
           destruct (decide (r = l)) as [<-|Hne]; [done|].
           rewrite lookup_insert_ne in Hnone by done.
           destruct (decide (out = l)) as [<-|Hne'].
           ++ by rewrite lookup_insert_eq in Hnone.
           ++ by rewrite lookup_insert_ne in Hnone.
Qed.
End encode_rows.

(** [encode] terminates without an exception on every image and message.
    It returns a list object that did not exist before and whose rows did
    not exist before, leaves every object of the old heap as it was, and the
    new image holds the embedding of the message bits. *)
Lemma encode_run image message (g : grid) h c :
  grid_at h image = Some g →
  ∃ h' rows',
    encode image message (World h c) = (Ok (fresh (dom h)), World h' c) ∧
    h ⊆ h' ∧
    h' !! fresh (dom h) = Some (ImageList rows') ∧
    Forall (λ l, h !! l = None) rows' ∧
    grid_at h' (fresh (dom h)) =
      Some (embed_grid (message_to_bits message) 0 g).
Proof.
  unfold grid_at at 1. intros Hg.
  destruct (h !! image) as [[rows|?]|] eqn:Himg; [|discriminate..].
  apply mapM_Some in Hg.
  pose proof (fresh_lookup h) as Hfresh.
  set (out := fresh (dom h)) in *.
  set (bs := message_to_bits message).
  set (h1 := <[out := ImageList []]> h).
  destruct (encode_row_loop bs out rows g [] [] 0 h1 c)
    as (h' & rls' & st & Hrun & Hout' & Hgrid & Hframe & Hnew).
  - apply lookup_insert_eq.
  - eapply Forall2_impl; [exact Hg|]. intros l ps Hl. simpl in Hl.
    unfold h1. rewrite row_at_insert_ne; [done|].
    apply row_at_Some in Hl. congruence.
  - constructor.
  - exists h', rls'. split_and!.
    + unfold encode, bind, new_list, image_items. simpl. fold out bs h1.
      unfold h1 at 1. rewrite lookup_insert_ne, Himg by congruence.
      fold h1. simpl in Hrun. rewrite Hrun. reflexivity.
    + apply map_subseteq_spec. intros l o Hl. rewrite Hframe.
      * unfold h1. rewrite lookup_insert_ne; congruence.
      * congruence.
      * unfold h1. rewrite lookup_insert_ne by congruence. eauto.
    + exact Hout'.
    + eapply Forall_impl; [exact Hnew|]. intros l [Hin|Hnone].
      * by apply elem_of_nil in Hin.
      * unfold h1 in Hnone. destruct (decide (out = l)) as [<-|Hne]; [done|].
        by rewrite lookup_insert_ne in Hnone.
    + unfold grid_at. rewrite Hout'. apply mapM_Some. exact Hgrid.
Qed.

(** ** The embedding, slot by slot *)

Lemma embed_row_slots bs (r : list pixel) i :
  mjoin (embed_row bs i r) = imap (λ k, embed_slot bs (i + k)) (mjoin r).
Proof.
  revert i. induction r as [|p r IH]; intros i; [reflexivity|].
  simpl. rewrite IH, imap_app. f_equal.
  apply imap_ext. intros k v _. simpl. f_equal. lia.
Qed.

Lemma embed_grid_slots bs (g : grid) i :
  slots (embed_grid bs i g) = imap (λ k, embed_slot bs (i + k)) (slots g).
Proof.
  unfold slots. revert i. induction g as [|r g IH]; intros i; [reflexivity|].
  simpl. rewrite !join_app, IH, embed_row_slots, imap_app. f_equal.
  apply imap_ext. intros k v _. simpl. f_equal. lia.
Qed.

Lemma embed_pixel_length bs i p : length (embed_pixel bs i p) = length p.
Proof. apply length_imap. Qed.

Lemma embed_grid_capacity bs (g : grid) i :
  capacity (embed_grid bs i g) = capacity g.
Proof. unfold capacity. rewrite embed_grid_slots. apply length_imap. Qed.

(** The embedding changes neither the shape of the grid nor any bit above
    bit 0. *)
Lemma embed_grid_shiftr bs (g : grid) i :
  Forall2 (Forall2 (Forall2 (λ e o : Z, (e ≫ 1 = o ≫ 1)%Z)))
    (embed_grid bs i g) g.
Proof.
  revert i. induction g as [|r g IHg]; intros i; simpl; constructor; [|apply IHg].
  generalize i. clear. induction r as [|p r IHr]; intros i; simpl;
    constructor; [|apply IHr].
  generalize i. clear. induction p as [|v p IHp]; intros i; [constructor|].
  unfold embed_pixel. rewrite imap_cons. constructor.
  - unfold embed_slot. destruct (bs !! _); apply set_bit_shiftr.
  - rewrite (imap_ext _ (λ k, embed_slot bs (S i + k))); [apply IHp|].
    intros k x _. simpl. f_equal. lia.
Qed.

(** The LSB stream after embedding: the bit-string, cut or padded with
    zeros to the number of slots. *)
Lemma lsb_embed_slots bs (vs : list Z) i :
  Forall is_bit bs →
  lsb <$> imap (λ k, embed_slot bs (i + k)) vs
  = resize (length vs) "0"%char (drop i bs).
Proof.
  intros Hbs. revert i. induction vs as [|v vs IH]; intros i.
  { simpl. by rewrite resize_0. }
  rewrite imap_cons, fmap_cons, Nat.add_0_r.
  rewrite (imap_ext _ (λ k, embed_slot bs (S i + k)))
    by (intros k x _; simpl; f_equal; lia).
  rewrite IH. unfold embed_slot. destruct (bs !! i) as [b|] eqn:Hb.
  - rewrite (drop_S _ _ _ Hb). simpl. f_equal.
    apply lsb_set_bit_chr. eapply Forall_lookup_1; eassumption.
  - apply lookup_ge_None in Hb.
    rewrite !drop_ge by lia. simpl. rewrite resize_nil. f_equal.
    apply lsb_set_bit_zero.
Qed.

(** A slot beyond the end of the bit-string keeps its place in the
    traversal and has only its bit 0 cleared. *)
Lemma embed_grid_padding bs (g : grid) i o :
  length bs ≤ i →
  slots g !! i = Some o →
  ∃ v, slots (embed_grid bs 0 g) !! i = Some v ∧
       Z.testbit v 0 = false ∧ (v ≫ 1 = o ≫ 1)%Z.
Proof.
  intros Hi Ho. exists (bits.set_bit o (BitInt 0) 0).
  split_and!; [| by rewrite set_bit_testbit | apply set_bit_shiftr].
  rewrite embed_grid_slots, list_lookup_imap, Ho. simpl.
  unfold embed_slot. by rewrite (proj2 (lookup_ge_None bs i)) by lia.
Qed.

Lemma lsb_stream_embed bs (g : grid) :
  Forall is_bit bs →
  lsb_stream (embed_grid bs 0 g) = resize (capacity g) "0"%char bs.
Proof.
  intros Hbs. unfold lsb_stream. rewrite embed_grid_slots.
  rewrite lsb_embed_slots by done. reflexivity.
Qed.

(** ** The bit-string of a message *)

Lemma message_to_bits_join text :
  message_to_bits text = mjoin (bits.char_to_bits <$> text).
Proof.
  unfold message_to_bits.
  enough (∀ acc, fold_left (λ output char, output ++ bits.char_to_bits char)
                   text acc = acc ++ mjoin (bits.char_to_bits <$> text))
    as H by apply (H []).
  induction text as [|c text IH]; intros acc; simpl.
  - by rewrite app_nil_r.
  - by rewrite IH, <- app_assoc.
Qed.

Lemma message_to_bits_length text :
  length (message_to_bits text) = 8 * length text.
Proof.
  rewrite message_to_bits_join.
  induction text as [|c text IH]; [reflexivity|].
  csimpl. rewrite length_app, char_to_bits_length, IH. lia.
Qed.

Lemma message_to_bits_is_bit text : Forall is_bit (message_to_bits text).
Proof.
  rewrite message_to_bits_join.
  induction text as [|c text IH]; [constructor|].
  csimpl. apply Forall_app. split; [apply char_to_bits_is_bit | exact IH].
Qed.

(** ** Aligned groups of a bit-string *)

Lemma byte_char_ok b : bit_group b → bits.bits_to_char b = Ok (byte_char b).
Proof.
  intros [c Hc]%bits_to_char_ok. unfold byte_char. rewrite Hc. reflexivity.
Qed.

Lemma byte_char_to_bits c : byte_char (bits.char_to_bits c) = c.
Proof. unfold byte_char. rewrite bits_to_char_to_bits. reflexivity. Qed.

Lemma lsb_is_bit (vs : list Z) : Forall is_bit (lsb <$> vs).
Proof. apply Forall_fmap, Forall_true. intros v. apply digit_is_bit. Qed.

Lemma group_0 s : group 0 s = take 8 s.
Proof. reflexivity. Qed.

Lemma group_S i s : group (S i) s = group i (drop 8 s).
Proof.
  unfold group. rewrite drop_drop. do 2 f_equal. lia.
Qed.

Lemma group_length i s : 8 * i + 8 ≤ length s → length (group i s) = 8.
Proof. intros H. unfold group. rewrite length_take, length_drop. lia. Qed.

Lemma group_bit_group i s :
  Forall is_bit s → 8 * i + 8 ≤ length s → bit_group (group i s).
Proof.
  intros Hs Hlen. split; [by apply group_length|].
  unfold group. by apply Forall_take, Forall_drop.
Qed.

Lemma groups_S j s : groups (S j) s = group 0 s :: groups j (drop 8 s).
Proof.
  unfold groups. simpl. f_equal. rewrite <- fmap_S_seq, <- list_fmap_compose.
  apply list_fmap_ext. intros _ i _. apply group_S.
Qed.

Lemma chars_S j s :
  chars (S j) s = byte_char (group 0 s) :: chars j (drop 8 s).
Proof. unfold chars. rewrite groups_S. reflexivity. Qed.

Lemma groups_length j s : length (groups j s) = j.
Proof. unfold groups. by rewrite length_fmap, length_seq. Qed.

Lemma chars_length j s : length (chars j s) = j.
Proof. unfold chars. by rewrite length_fmap, groups_length. Qed.

Lemma groups_lookup j s i : i < j → groups j s !! i = Some (group i s).
Proof.
  intros Hi. unfold groups. rewrite list_lookup_fmap, lookup_seq_lt by done.
  reflexivity.
Qed.

(** The groups and characters read depend on the first [8 * j] bits only. *)
Lemma groups_take j s : groups j (take (8 * j) s) = groups j s.
Proof.
  unfold groups. apply list_fmap_ext. intros k i [Hi Hk]%lookup_seq.
  simpl in Hi. subst i.
  unfold group. rewrite take_drop_commute, take_take.
  rewrite (take_drop_commute s). do 2 f_equal. lia.
Qed.

Lemma groups_bit_group j s :
  Forall is_bit s → 8 * j ≤ length s → Forall bit_group (groups j s).
Proof.
  intros Hs Hlen. unfold groups. apply Forall_fmap, Forall_forall.
  intros i [_ Hi]%elem_of_seq. apply group_bit_group; [done|]. simpl; lia.
Qed.

Lemma chars_decoded j s :
  Forall is_bit s → 8 * j ≤ length s →
  Forall2 (λ c i, bits.bits_to_char (group i s) = Ok c) (chars j s) (seq 0 j).
Proof.
  intros Hs Hlen. unfold chars, groups.
  rewrite <- list_fmap_compose. apply Forall2_fmap_l, Forall_Forall2_diag.
  apply Forall_forall. intros i [_ Hi]%elem_of_seq. simpl.
  apply byte_char_ok, group_bit_group; [done|lia].
Qed.

Lemma decode_num_fill v out chunk w :
  length chunk + 1 < 8 →
  decode_num v (out, chunk) w = (Ok (Next (out, chunk ++ [lsb v])), w).
Proof.
  intros Hlen. unfold decode_num. rewrite get_bit_lsb.
  rewrite bool_decide_eq_false_2; [reflexivity|].
  rewrite length_app. unfold BYTE_LENGTH. simpl. lia.
Qed.

Lemma decode_num_zero v out chunk w :
  chunk ++ [lsb v] = ZERO_BYTE →
  decode_num v (out, chunk) w = (Ok (Return out), w).
Proof.
  intros Hz. unfold decode_num. rewrite get_bit_lsb, Hz. reflexivity.
Qed.

Lemma decode_num_char v out chunk h c :
  length chunk = 7 →
  chunk ++ [lsb v] ≠ ZERO_BYTE →
  Forall is_bit chunk →
  decode_num v (out, chunk) (World h c) =
  (Ok (Next (out ++ [byte_char (chunk ++ [lsb v])], [])),
   World h (c ++ [chunk ++ [lsb v]])).
Proof.
  intros Hlen Hnz Hbits. unfold decode_num. rewrite get_bit_lsb.
  rewrite bool_decide_eq_true_2
    by (rewrite length_app, Hlen; reflexivity).
  rewrite bool_decide_eq_false_2 by done.
  unfold bind, call_bits_to_char. rewrite byte_char_ok; [reflexivity|].
  split.
  - rewrite length_app, Hlen. reflexivity.
  - apply Forall_app. split; [done|].
    apply Forall_singleton, digit_is_bit.
Qed.

(** Fewer than 8 bits in the buffer: the loop only accumulates. *)
Lemma decode_fill (vs : list Z) out chunk w :
  length chunk + length vs < 8 →
  for_ret vs decode_num (out, chunk) w =
  (Ok (Next (out, chunk ++ (lsb <$> vs))), w).
Proof.
  revert chunk. induction vs as [|v vs IH]; intros chunk Hlen.
  - simpl. unfold ret. by rewrite app_nil_r.
  - simpl in Hlen. rewrite for_ret_cons, decode_num_fill by lia.
    rewrite IH by (rewrite length_app; simpl; lia).
    by rewrite <- app_assoc.
Qed.

(** One aligned group of 8 slots. *)
Lemma decode_group (vs : list Z) out h c :
  length vs = 8 →
  for_ret vs decode_num (out, []) (World h c) =
  if bool_decide (lsb <$> vs = ZERO_BYTE)
  then (Ok (Return out), World h c)
  else (Ok (Next (out ++ [byte_char (lsb <$> vs)], [])),
        World h (c ++ [lsb <$> vs])).
Proof.
  intros Hlen.
  destruct vs as [|v vs' _] using rev_ind; [discriminate|].
  rewrite length_app in Hlen. simpl in Hlen.
  rewrite for_ret_app. unfold bind.
  rewrite decode_fill by (simpl; lia).
  rewrite app_nil_l, fmap_app, for_ret_cons.
  change (lsb <$> [v]) with [lsb v].
  case_bool_decide as Hz.
  - rewrite decode_num_zero by done. reflexivity.
  - rewrite decode_num_char; [reflexivity| |done|apply lsb_is_bit].
    rewrite length_fmap. lia.
Qed.

(** [j] aligned groups, none of them the terminator: [j] characters are
    output and [j] groups are handed to [bits_to_char]. *)
Lemma decode_groups j : ∀ (vs : list Z) out h c,
  8 * j ≤ length vs →
  (∀ i, i < j → group i (lsb <$> vs) ≠ ZERO_BYTE) →
  for_ret vs decode_num (out, []) (World h c) =
  for_ret (drop (8 * j) vs) decode_num
    (out ++ chars j (lsb <$> vs), [])
    (World h (c ++ groups j (lsb <$> vs))).
Proof.
  induction j as [|j IH]; intros vs out h c Hlen Hnz.
  - simpl. by rewrite !app_nil_r.
  - rewrite <- (take_drop 8 vs) at 1. rewrite for_ret_app. unfold bind.
    rewrite decode_group by (rewrite length_take; lia).
    rewrite fmap_take, <- group_0.
    rewrite bool_decide_eq_false_2 by (apply Hnz; lia).
    rewrite IH.
    + rewrite drop_drop, chars_S, groups_S, fmap_drop, <- !app_assoc.
      simpl. do 2 f_equal. lia.
    + rewrite length_drop. lia.
    + intros i Hi. rewrite fmap_drop, <- group_S. apply Hnz. lia.
Qed.

(** ** [decode] on an image in the heap *)

Lemma for_ret_join {A S R} (body : A → S → M (ctl S R)) (ls : list (list A))
    s w :
  for_ret ls (λ l s, for_ret l body s) s w = for_ret (mjoin ls) body s w.
Proof.
  revert s w. induction ls as [|l ls IH]; intros s w; [reflexivity|].
  rewrite for_ret_cons. simpl. rewrite for_ret_app. unfold bind.
  destruct (for_ret l body s w) as [[[s'|r]|e] w']; [apply IH|reflexivity..].
Qed.

(** Decoding reads the heap and never writes it. *)
Lemma decode_num_heap (vs : list Z) : ∀ st h c,
  ∃ res c', for_ret vs decode_num st (World h c) = (res, World h c').
Proof.
  induction vs as [|v vs IH]; intros [out chunk] h c.
  - simpl. unfold ret. eauto.
  - rewrite for_ret_cons. unfold decode_num at 1.
    repeat case_bool_decide; unfold bind, ret, call_bits_to_char; simpl;
      [eauto| |apply IH].
    destruct (bits.bits_to_char _); [apply IH|eauto].
Qed.

Lemma decode_rows_flat h rows (g : grid) st c :
  Forall2 (λ l ps, row_at h l = Some ps) rows g →
  for_ret rows decode_row st (World h c) =
  for_ret (slots g) decode_num st (World h c).
Proof.
  intros Hrows. revert st c.
  induction Hrows as [|row ps rows g Hrow%row_at_Some _ IH]; intros st c;
    [reflexivity|].
  rewrite for_ret_cons. unfold decode_row at 1, bind, row_items. simpl.
  rewrite Hrow.
  change (for_ret ps decode_pixel st) with
    (for_ret ps (λ l s, for_ret l decode_num s) st).
  rewrite for_ret_join.
  unfold slots. simpl. rewrite join_app, for_ret_app. unfold bind.
  destruct (decode_num_heap (mjoin ps) st h c) as (res & c' & ->).
  destruct res as [[s'|r]|e]; [apply IH|reflexivity..].
Qed.

Lemma decode_flat image (g : grid) h c :
  grid_at h image = Some g →
  decode image (World h c) =
  match for_ret (slots g) decode_num ([], []) (World h c) with
  | (Ok (Return output), w) => (Ok output, w)
  | (Ok (Next (output, _)), w) => (Ok output, w)
  | (Raise e, w) => (Raise e, w)
  end.
Proof.
  unfold grid_at. intros Hg.
  destruct (h !! image) as [[rows|?]|] eqn:Himg; [|discriminate..].
  apply mapM_Some in Hg.
  unfold decode, bind, image_items. simpl. rewrite Himg.
  rewrite (decode_rows_flat h rows g) by done.
  destruct (for_ret _ _ _ _) as [[[[? ?]|?]|?] ?]; reflexivity.
Qed.

Lemma decode_stops_at image (g : grid) h c j :
  grid_at h image = Some g →
  stops_at j (lsb_stream g) →
  decode image (World h c) =
  (Ok (chars j (lsb_stream g)), World h (c ++ groups j (lsb_stream g))).
Proof.
  intros Hg (Hlen & Hnz & Hz). rewrite (decode_flat image g) by done.
  unfold lsb_stream in *. rewrite length_fmap in *.
  rewrite (decode_groups j) by done.
  destruct (decide (8 * j + 8 ≤ length (slots g))) as [Hfull|Hpart].
  - rewrite <- (take_drop 8 (drop (8 * j) (slots g))), for_ret_app.
    unfold bind.
    rewrite decode_group by (rewrite length_take, length_drop; lia).
    rewrite fmap_take, fmap_drop. fold (group j (lsb <$> slots g)).
    rewrite bool_decide_eq_true_2 by auto. reflexivity.
  - rewrite decode_fill by (rewrite length_drop; simpl; lia). reflexivity.
Qed.

Lemma stops_at_exists s : ∃ j, stops_at j s.
Proof.
  assert (∀ n, 8 * n ≤ length s →
            (∀ i, i < n → group i s ≠ ZERO_BYTE) ∨
            (∃ j, j < n ∧ stops_at j s)) as Hsearch.
  { induction n as [|n IH]; intros Hn; [left; lia|].
    destruct IH as [Hnone|(j & Hj & Hstop)]; [lia| |right; eauto].
    destruct (decide (group n s = ZERO_BYTE)) as [Hz|Hnz].
    - right. exists n. split; [lia|]. split_and!; [lia|done|done].
    - left. intros i Hi. destruct (decide (i = n)) as [->|]; [done|].
      apply Hnone. lia. }
  destruct (Hsearch (length s / 8)) as [Hnone|(j & _ & Hstop)].
  - apply Nat.Div0.mul_div_le.
  - exists (length s / 8). split_and!; [apply Nat.Div0.mul_div_le|done|].
    intros Hlen. pose proof (Nat.div_mod_eq (length s) 8).
    pose proof (Nat.mod_upper_bound (length s) 8). lia.
  - eauto.
Qed.

Lemma grid_at_weaken (h h' : gmap loc obj) l (g : grid) :
  h ⊆ h' → grid_at h l = Some g → grid_at h' l = Some g.
Proof.
  intros Hsub. unfold grid_at. intros Hg.
  destruct (h !! l) as [[rows|?]|] eqn:Hl; [|discriminate..].
  rewrite (lookup_weaken _ _ _ _ Hl Hsub).
  apply mapM_Some. apply mapM_Some in Hg.
  eapply Forall2_impl; [exact Hg|]. intros r ps Hr. simpl in Hr.
  apply row_at_Some. apply row_at_Some in Hr.
  eapply lookup_weaken; eassumption.
Qed.

Lemma embed_grid_shape bs (g : grid) i :
  Forall2 (Forall2 (λ p' p : pixel, length p' = length p))
    (embed_grid bs i g) g.
Proof.
  eapply Forall2_impl; [apply embed_grid_shiftr|]. intros r' r Hr.
  eapply Forall2_impl; [exact Hr|]. intros p' p Hp.
  eapply Forall2_length, Hp.
Qed.

Lemma group_message (m : str) rest i c :
  m !! i = Some c →
  group i (mjoin (bits.char_to_bits <$> m) ++ rest) = bits.char_to_bits c.
Proof.
  revert i. induction m as [|c0 m IH]; intros i Hi; [done|].
  csimpl. rewrite <- app_assoc. destruct i as [|i].
  - injection Hi as ->. rewrite group_0.
    apply take_app_length'. by rewrite char_to_bits_length.
  - rewrite group_S, drop_app_length' by (by rewrite char_to_bits_length).
    by apply IH.
Qed.

Lemma chars_message (m : str) rest :
  chars (length m) (mjoin (bits.char_to_bits <$> m) ++ rest) = m.
Proof.
  induction m as [|c0 m IH]; [reflexivity|].
  csimpl. rewrite <- app_assoc, chars_S, group_0.
  rewrite take_app_length', drop_app_length'
    by (by rewrite char_to_bits_length).
  by rewrite byte_char_to_bits, IH.
Qed.

(** ** Where [decode] stops *)

Lemma group_zero_length j s : group j s = ZERO_BYTE → 8 * j + 8 ≤ length s.
Proof.
  intros H. apply (f_equal length) in H. unfold group in H.
  rewrite length_take, length_drop in H.
  change (length ZERO_BYTE) with 8 in H. lia.
Qed.

Lemma group_take i n s : 8 * i + 8 ≤ n → group i (take n s) = group i s.
Proof.
  intros Hn. unfold group.
  rewrite !take_drop_commute, take_take. do 2 f_equal. lia.
Qed.

Lemma stops_at_first j s :
  group j s = ZERO_BYTE →
  (∀ i, i < j → group i s ≠ ZERO_BYTE) →
  stops_at j s.
Proof.
  intros Hz Hnz. pose proof (group_zero_length j s Hz).
  split_and!; [lia | done | done].
Qed.

Lemma stops_at_none s :
  (∀ j, group j s ≠ ZERO_BYTE) → stops_at (length s / 8) s.
Proof.
  intros Hnz. split_and!; [apply Nat.Div0.mul_div_le | auto |].
  intros Hlen. pose proof (Nat.div_mod_eq (length s) 8).
  pose proof (Nat.mod_upper_bound (length s) 8). lia.
Qed.

Lemma stops_at_unique j1 j2 s : stops_at j1 s → stops_at j2 s → j1 = j2.
Proof.
  intros (Hlen1 & Hnz1 & Hz1) (Hlen2 & Hnz2 & Hz2).
  destruct (Nat.lt_trichotomy j1 j2) as [Hlt|[Heq|Hgt]]; [|done|].
  - destruct (Hnz2 j1 Hlt). apply Hz1. lia.
  - destruct (Hnz1 j2 Hgt). apply Hz2. lia.
Qed.

(** A bit-string that agrees with [s] up to and including the terminator
    group stops at the same group and carries the same characters. *)
Lemma stops_at_agree j s s2 :
  take (8 * j + 8) s2 = take (8 * j + 8) s →
  8 * j + 8 ≤ length s →
  stops_at j s →
  stops_at j s2 ∧ chars j s2 = chars j s.
Proof.
  intros Htake Hlen (_ & Hnz & Hz).
  assert (8 * j + 8 ≤ length s2) as Hlen2.
  { apply (f_equal length) in Htake. rewrite !length_take in Htake. lia. }
  assert (∀ i, i ≤ j → group i s2 = group i s) as Hgroup.
  { intros i Hi. rewrite <- (group_take i (8 * j + 8) s2) by lia.
    rewrite Htake. apply group_take. lia. }
  split.
  - split_and!; [lia | |].
    + intros i Hi. rewrite Hgroup by lia. auto.
    + intros _. rewrite Hgroup by lia. auto.
  - unfold chars, groups. f_equal. apply list_fmap_ext.
    intros k i [Hi Hk]%lookup_seq. apply Hgroup. simpl in Hi. lia.
Qed.

(** Every run of [decode] on an image returns a message; the bit groups it
    passes to [bits_to_char] are well formed. *)
Lemma decode_total image (g : grid) h c :
  grid_at h image = Some g →
  ∃ j,
    stops_at j (lsb_stream g) ∧
    decode image (World h c) =
    (Ok (chars j (lsb_stream g)), World h (c ++ groups j (lsb_stream g))) ∧
    Forall bit_group (groups j (lsb_stream g)).
Proof.
  intros Hg. destruct (stops_at_exists (lsb_stream g)) as [j Hstop].
  exists j. split_and!; [done | by apply decode_stops_at |].
  apply groups_bit_group; [apply lsb_is_bit | apply Hstop].
Qed.

Lemma zero_group_lookup p s :
  (∀ i, p ≤ i < p + 8 → s !! i = Some "0"%char) →
  take 8 (drop p s) = ZERO_BYTE.
Proof.
  intros Hz. apply list_eq. intros i.
  destruct (decide (i < 8)) as [Hi|Hi].
  - rewrite lookup_take_lt, lookup_drop, Hz by lia.
    do 8 (destruct i as [|i]; [reflexivity|]). lia.
  - rewrite lookup_take_ge by lia. symmetry.
    apply lookup_ge_None_2. simpl. lia.
Qed.

(** * The claims of the specification *)

(** C1 (round trip): for every pixel grid g and every ASCII message m that
    contains no NUL character and whose bit length (8 times its character
    count) is strictly less than the capacity of g minus 8,
    decode(encode(g, m)) equals m. *)
Theorem C1_round_trip (w : world) (image : loc) (g : grid) (m : str) :
  grid_at (heap w) image = Some g →
  Forall is_ascii m →
  NUL ∉ m →
  (8 * Z.of_nat (length m) < Z.of_nat (capacity g) - 8)%Z →
  ∃ w', (let! encoded := encode image m in decode encoded) w = (Ok m, w').
Proof.
  destruct w as [h c]. cbn [heap codec_calls]. intros Hg _ Hnul Hcap.
  destruct (encode_run image m g h c Hg)
    as (h' & rows' & Hrun & _ & _ & _ & Hout).
  unfold bind. rewrite Hrun.
  set (bs := message_to_bits m) in *.
  set (g' := embed_grid bs 0 g) in *.
  assert (lsb_stream g' =
          mjoin (bits.char_to_bits <$> m)
          ++ replicate (capacity g - 8 * length m) "0"%char) as Hs.
  { unfold g'. rewrite lsb_stream_embed by apply message_to_bits_is_bit.
    rewrite resize_ge by (unfold bs; rewrite message_to_bits_length; lia).
    unfold bs. by rewrite message_to_bits_length, message_to_bits_join. }
  assert (stops_at (length m) (lsb_stream g')) as Hstop.
  { rewrite Hs. split_and!.
    - rewrite length_app, length_replicate, <- message_to_bits_join,
        message_to_bits_length. lia.
    - intros i Hi. destruct (lookup_lt_is_Some_2 m i Hi) as [ch Hch].
      rewrite (group_message m _ i ch Hch). intros ->%char_to_bits_zero.
      apply Hnul. eapply list_elem_of_lookup_2, Hch.
    - intros _. unfold group.
      rewrite drop_app_length'
        by (by rewrite <- message_to_bits_join, message_to_bits_length).
      rewrite take_replicate.
      replace (8 `min` (capacity g - 8 * length m)) with 8 by lia.
      reflexivity. }
  rewrite (decode_stops_at _ g' h' c (length m) Hout Hstop).
  rewrite Hs, chars_message. eauto.
Qed.

(** C2 (LSB-only change): for every grid g and message m, encode(g, m)
    returns a grid of the same shape in which every channel value agrees
    with the corresponding channel value of g on all bits above bit 0:
    encoded >> 1 == original >> 1. *)
Theorem C2_lsb_only_change (w : world) (image : loc) (g : grid) (m : str) :
  grid_at (heap w) image = Some g →
  ∃ out w' g',
    encode image m w = (Ok out, w') ∧
    grid_at (heap w') out = Some g' ∧
    Forall2 (Forall2 (Forall2 (λ encoded original : Z,
      (encoded ≫ 1 = original ≫ 1)%Z))) g' g.
Proof.
  destruct w as [h c]. cbn [heap codec_calls]. intros Hg.
  destruct (encode_run image m g h c Hg)
    as (h' & rows' & Hrun & _ & _ & _ & Hout).
  eexists _, _, _. split_and!; [exact Hrun | exact Hout |].
  apply embed_grid_shiftr.
Qed.


(** C4 (zero padding): for every grid g and message m, encode(g, m) is a
    grid of the shape of g, and for every channel slot of g whose index i
    in the traversal order is at least the bit length of m's bit-stream, the
    corresponding channel value of encode(g, m) has LSB 0 (and the other
    bits of the original value); in particular encode(g, "") is a grid of
    the shape of g in which the LSB of every slot is 0. *)
Theorem C4_zero_padding (w : world) (image : loc) (g : grid) (m : str) :
  grid_at (heap w) image = Some g →
  (∃ out w' g',
     encode image m w = (Ok out, w') ∧
     grid_at (heap w') out = Some g' ∧
     Forall2 (Forall2 (λ p' p : pixel, length p' = length p)) g' g ∧
     capacity g' = capacity g ∧
     (∀ i original, length (message_to_bits m) ≤ i →
        slots g !! i = Some original →
        ∃ encoded, slots g' !! i = Some encoded ∧
          Z.testbit encoded 0 = false ∧
          (encoded ≫ 1 = original ≫ 1)%Z) ∧
     (∀ i v, length (message_to_bits m) ≤ i →
        slots g' !! i = Some v → Z.testbit v 0 = false)) ∧
  (∃ out w' g',
     encode image [] w = (Ok out, w') ∧
     grid_at (heap w') out = Some g' ∧
     Forall2 (Forall2 (λ p' p : pixel, length p' = length p)) g' g ∧
     capacity g' = capacity g ∧
     Forall (λ v, Z.testbit v 0 = false) (slots g')).
Proof.
  destruct w as [h c]. cbn [heap codec_calls]. intros Hg.
  assert (∀ bs i v, length bs ≤ i →
            slots (embed_grid bs 0 g) !! i = Some v →
            Z.testbit v 0 = false) as Hpad.
  { intros bs i v Hi Hv.
    destruct (lookup_lt_is_Some_2 (slots g) i) as [o Ho].
    { apply lookup_lt_Some in Hv. fold (capacity (embed_grid bs 0 g)) in Hv.
      rewrite embed_grid_capacity in Hv. exact Hv. }
    destruct (embed_grid_padding bs g i o Hi Ho) as (v' & Hv' & Hbit & _).
    congruence. }
  split.
  - destruct (encode_run image m g h c Hg)
      as (h' & rows' & Hrun & _ & _ & _ & Hout).
    eexists _, _, _. split; [exact Hrun|]. split; [exact Hout|].
    split_and!.
    + apply embed_grid_shape.
    + apply embed_grid_capacity.
    + intros i o Hi Ho. by apply embed_grid_padding.
    + apply Hpad.
  - destruct (encode_run image [] g h c Hg)
      as (h' & rows' & Hrun & _ & _ & _ & Hout).
    eexists _, _, _. split; [exact Hrun|]. split; [exact Hout|].
    split_and!.
    + apply embed_grid_shape.
    + apply embed_grid_capacity.
    + apply Forall_lookup. intros i v Hv.
      apply (Hpad (message_to_bits []) i v); [simpl; lia | exact Hv].
Qed.

(** C5 (terminator): for every grid, decode accumulates the LSBs in
    traversal order and, the first time an aligned 8-bit group (bits
    8j..8j+7 of the LSB stream) equals the all-zero byte, returns exactly the
    characters decoded from the j preceding groups; the remaining channel
    slots are ignored: every grid with the same first 8j+8 LSBs decodes to
    the same message. *)
Theorem C5_terminator_halts (w : world) (image : loc) (g : grid) (j : nat) :
  grid_at (heap w) image = Some g →
  group j (lsb_stream g) = ZERO_BYTE →
  (∀ i, i < j → group i (lsb_stream g) ≠ ZERO_BYTE) →
  ∃ msg w',
    decode image w = (Ok msg, w') ∧
    Forall2 (λ c i, bits.bits_to_char (group i (lsb_stream g)) = Ok c)
      msg (seq 0 j) ∧
    (∀ (w2 : world) (image2 : loc) (g2 : grid),
       grid_at (heap w2) image2 = Some g2 →
       take (8 * j + 8) (lsb_stream g2) = take (8 * j + 8) (lsb_stream g) →
       ∃ w2', decode image2 w2 = (Ok msg, w2')).
Proof.
  destruct w as [h c]. cbn [heap codec_calls]. intros Hg Hz Hnz.
  pose proof (stops_at_first j _ Hz Hnz) as Hstop.
  pose proof (group_zero_length j _ Hz) as Hlen.
  eexists _, _. split_and!.
  - by apply decode_stops_at.
  - apply chars_decoded; [apply lsb_is_bit | lia].
  - intros [h2 c2] image2 g2 Hg2 Htake. simpl in Hg2.
    destruct (stops_at_agree j _ _ Htake Hlen Hstop) as [Hstop2 <-].
    eexists. by apply decode_stops_at.
Qed.

(** C6 (missing terminator): for every grid, encoded or not, decode returns
    a message and raises no error; if the traversal completes without any
    aligned 8-bit group equal to the all-zero terminator, the message
    returned is the one accumulated from all complete groups. *)
Theorem C6_missing_terminator (w : world) (image : loc) (g : grid) :
  grid_at (heap w) image = Some g →
  ∃ msg w',
    decode image w = (Ok msg, w') ∧
    ((∀ j, group j (lsb_stream g) ≠ ZERO_BYTE) →
     Forall2 (λ c i, bits.bits_to_char (group i (lsb_stream g)) = Ok c)
       msg (seq 0 (capacity g / 8))).
Proof.
  destruct w as [h c]. cbn [heap codec_calls]. intros Hg.
  destruct (decode_total image g h c Hg) as (j & Hstop & Hrun & _).
  eexists _, _. split; [exact Hrun|]. intros Hnz.
  pose proof (stops_at_unique _ _ _ Hstop (stops_at_none _ Hnz)) as Hj.
  assert (length (lsb_stream g) = capacity g) as Hlen
    by apply length_fmap.
  rewrite Hlen in Hj. subst j.
  apply chars_decoded; [apply lsb_is_bit|].
  rewrite Hlen. apply Nat.Div0.mul_div_le.
Qed.

(** C7, as amended (terminator detection): for every grid in which the
    channel slots at positions p, p+1, ..., p+7 (p a multiple of 8) all have
    LSB 0 and no aligned 8-bit group before position p is all-zero, decode
    returns a message of exactly p/8 characters. *)
Theorem C7_terminator_detection (w : world) (image : loc) (g : grid)
    (p : nat) :
  grid_at (heap w) image = Some g →
  p mod 8 = 0 →
  (∀ i, p ≤ i < p + 8 →
     ∃ v, slots g !! i = Some v ∧ Z.testbit v 0 = false) →
  (∀ j, j < p / 8 → group j (lsb_stream g) ≠ ZERO_BYTE) →
  ∃ msg w', decode image w = (Ok msg, w') ∧ length msg = p / 8.
Proof.
  destruct w as [h c]. cbn [heap codec_calls]. intros Hg Hp Hzero Hnz.
  assert (8 * (p / 8) = p) as Hp8.
  { pose proof (Nat.div_mod_eq p 8). lia. }
  assert (group (p / 8) (lsb_stream g) = ZERO_BYTE) as Hz.
  { unfold group. rewrite Hp8. apply zero_group_lookup. intros i Hi.
    destruct (Hzero i Hi) as (v & Hv & Hbit).
    unfold lsb_stream. rewrite list_lookup_fmap, Hv. simpl. f_equal.
    by apply lsb_zero. }
  eexists _, _. split.
  - apply decode_stops_at; [done|]. by apply stops_at_first.
  - apply chars_length.
Qed.

(** C8 (dimension preservation, new object): for every grid g and message
    m, encode(g, m) is a grid with the same row count, the same pixel count
    in each row and the same channel arity in each pixel as g.  It is a new
    list object, distinct from the input and from every object that existed
    before, and so are its rows; the objects of the input are unchanged. *)
Theorem C8_dimensions_new_grid (w : world) (image : loc) (g : grid) (m : str) :
  grid_at (heap w) image = Some g →
  ∃ out w' g' rows',
    encode image m w = (Ok out, w') ∧
    grid_at (heap w') out = Some g' ∧
    length g' = length g ∧
    Forall2 (λ r' r : list pixel, length r' = length r) g' g ∧
    Forall2 (Forall2 (λ p' p : pixel, length p' = length p)) g' g ∧
    out ≠ image ∧
    heap w !! out = None ∧
    heap w' !! out = Some (ImageList rows') ∧
    Forall (λ r, heap w !! r = None) rows' ∧
    heap w ⊆ heap w' ∧
    grid_at (heap w') image = Some g.
Proof.
  destruct w as [h c]. cbn [heap codec_calls]. intros Hg.
  destruct (encode_run image m g h c Hg)
    as (h' & rows' & Hrun & Hsub & Hobj & Hnew & Hout).
  pose proof (embed_grid_shape (message_to_bits m) g 0) as Hshape.
  eexists _, _, _, rows'. split_and!; try done.
  - eapply Forall2_length, Hshape.
  - eapply Forall2_impl; [exact Hshape|]. intros r' r Hr.
    eapply Forall2_length, Hr.
  - intros Heq. pose proof (fresh_lookup h) as Hfresh. rewrite Heq in Hfresh.
    unfold grid_at in Hg. rewrite Hfresh in Hg. discriminate.
  - apply fresh_lookup.
  - eapply grid_at_weaken; eassumption.
Qed.

(** C9 (well-formed bit groups): for every grid, every call of bits_to_char
    made by decode receives a string of exactly 8 binary digits; decode never
    calls it with fewer than 8 accumulated bits, so no call fails and decode
    does not raise MalformedBitGroup. *)
Theorem C9_bit_groups_well_formed (w : world) (image : loc) (g : grid) :
  grid_at (heap w) image = Some g →
  ∃ msg w' calls,
    decode image w = (Ok msg, w') ∧
    codec_calls w' = codec_calls w ++ calls ∧
    Forall (λ b, length b = 8 ∧ Forall is_bit b) calls ∧
    Forall (λ b, ∃ c, bits.bits_to_char b = Ok c) calls.
Proof.
  destruct w as [h c]. cbn [heap codec_calls]. intros Hg.
  destruct (decode_total image g h c Hg) as (j & _ & Hrun & Hcalls).
  eexists _, _, _. split_and!; [exact Hrun | reflexivity | exact Hcalls |].
  eapply Forall_impl; [exact Hcalls|]. intros b Hb. by apply bits_to_char_ok.
Qed.

(** C10 (trailing partial group): for every grid whose total channel-slot
    count is not a multiple of 8 and whose LSB stream contains no aligned
    all-zero byte, the message returned by decode has exactly
    floor(total_slots / 8) characters, those of the complete groups; the
    leftover bits contribute nothing: they are never passed to bits_to_char,
    and a grid holding only the complete groups decodes to the same
    message. *)
Theorem C10_partial_group_discarded (w : world) (image : loc) (g : grid) :
  grid_at (heap w) image = Some g →
  capacity g mod 8 ≠ 0 →
  (∀ j, group j (lsb_stream g) ≠ ZERO_BYTE) →
  ∃ msg w',
    decode image w = (Ok msg, w') ∧
    length msg = capacity g / 8 ∧
    Forall2 (λ c i, bits.bits_to_char (group i (lsb_stream g)) = Ok c)
      msg (seq 0 (capacity g / 8)) ∧
    codec_calls w' =
      codec_calls w ++ groups (capacity g / 8) (lsb_stream g) ∧
    (∀ (w2 : world) (image2 : loc) (g2 : grid),
       grid_at (heap w2) image2 = Some g2 →
       lsb_stream g2 = take (8 * (capacity g / 8)) (lsb_stream g) →
       ∃ w2', decode image2 w2 = (Ok msg, w2')).
Proof.
  destruct w as [h c]. cbn [heap codec_calls]. intros Hg _ Hnz.
  pose proof (stops_at_none _ Hnz) as Hstop.
  assert (length (lsb_stream g) = capacity g) as Hlen
    by apply length_fmap.
  rewrite Hlen in Hstop.
  pose proof (Nat.Div0.mul_div_le (capacity g) 8) as Hle.
  eexists _, _. split_and!.
  - by apply decode_stops_at.
  - apply chars_length.
  - apply chars_decoded; [apply lsb_is_bit | lia].
  - reflexivity.
  - intros [h2 c2] image2 g2 Hg2 Hs2. simpl in Hg2.
    assert (chars (capacity g / 8) (lsb_stream g)
            = chars (capacity g / 8) (lsb_stream g2)) as ->.
    { unfold chars. by rewrite Hs2, groups_take. }
    eexists. apply decode_stops_at; [done|].
    rewrite Hs2. split_and!.
    + rewrite length_take. lia.
    + intros i Hi. rewrite group_take by lia. apply Hnz.
    + rewrite length_take. lia.
Qed.

(** * Examples and witnesses *)

Example encode_Hi :
  ∃ out w',
    encode (image_of cover) (lit "Hi") (world_of cover) = (Ok out, w') ∧
    grid_at (heap w') out =
      Some [ [ [10; 11; 12]; [12; 15; 14]; [254; 254; 0] ];
             [ [1; 3; 2]; [5; 4; 6]; [7; 8; 8] ];
             [ [20; 22; 22]; [24; 24; 26]; [26; 28; 28] ] ]%Z.
Proof. eexists _, _. split; vm_compute; reflexivity. Qed.

Example message_to_bits_Hi :
  message_to_bits (lit "Hi") = lit "0100100001101001".
Proof. reflexivity. Qed.

Example char_to_bits_A : bits.char_to_bits "A" = lit "01000001".
Proof. reflexivity. Qed.

Example bits_to_char_A : bits.bits_to_char (lit "01000001") = Ok "A"%char.
Proof. reflexivity. Qed.

Example decode_cover :
  (decode (image_of cover) (world_of cover)).1 = Ok (lit "UUj").
Proof. vm_compute. reflexivity. Qed.

Lemma C1_round_trip_witness :
  ∃ w', (let! encoded := encode (image_of cover) (lit "Hi") in
         decode encoded) (world_of cover) = (Ok (lit "Hi"), w').
Proof.
  apply (C1_round_trip (world_of cover) (image_of cover) cover (lit "Hi")).
  - vm_compute. reflexivity.
  - repeat (apply Forall_cons_2; [vm_compute; reflexivity|]).
    apply Forall_nil_2.
  - compute_done.
  - vm_compute. reflexivity.
Defined.

Lemma C2_lsb_only_change_witness :
  ∃ out w' g',
    encode (image_of cover) (lit "Hi") (world_of cover) = (Ok out, w') ∧
    grid_at (heap w') out = Some g' ∧
    Forall2 (Forall2 (Forall2 (λ encoded original : Z,
      (encoded ≫ 1 = original ≫ 1)%Z))) g' cover.
Proof.
  apply (C2_lsb_only_change (world_of cover) (image_of cover) cover).
  vm_compute. reflexivity.
Defined.


Lemma C4_zero_padding_witness :
  (∃ out w' g',
     encode (image_of cover) (lit "Hi") (world_of cover) = (Ok out, w') ∧
     grid_at (heap w') out = Some g' ∧
     Forall2 (Forall2 (λ p' p : pixel, length p' = length p)) g' cover ∧
     capacity g' = capacity cover ∧
     (∀ i original, length (message_to_bits (lit "Hi")) ≤ i →
        slots cover !! i = Some original →
        ∃ encoded, slots g' !! i = Some encoded ∧
          Z.testbit encoded 0 = false ∧
          (encoded ≫ 1 = original ≫ 1)%Z) ∧
     (∀ i v, length (message_to_bits (lit "Hi")) ≤ i →
        slots g' !! i = Some v → Z.testbit v 0 = false)) ∧
  (∃ out w' g',
     encode (image_of cover) [] (world_of cover) = (Ok out, w') ∧
     grid_at (heap w') out = Some g' ∧
     Forall2 (Forall2 (λ p' p : pixel, length p' = length p)) g' cover ∧
     capacity g' = capacity cover ∧
     Forall (λ v, Z.testbit v 0 = false) (slots g')).
Proof.
  apply (C4_zero_padding (world_of cover) (image_of cover) cover).
  vm_compute. reflexivity.
Defined.

Lemma C5_terminator_halts_witness :
  ∃ msg w',
    decode (image_of letter_a) (world_of letter_a) = (Ok msg, w') ∧
    Forall2 (λ c i, bits.bits_to_char (group i (lsb_stream letter_a)) = Ok c)
      msg (seq 0 1) ∧
    (∀ (w2 : world) (image2 : loc) (g2 : grid),
       grid_at (heap w2) image2 = Some g2 →
       take (8 * 1 + 8) (lsb_stream g2)
         = take (8 * 1 + 8) (lsb_stream letter_a) →
       ∃ w2', decode image2 w2 = (Ok msg, w2')).
Proof.
  apply (C5_terminator_halts (world_of letter_a) (image_of letter_a)
           letter_a 1).
  - vm_compute. reflexivity.
  - vm_compute. reflexivity.
  - intros i Hi. replace i with 0 by lia. vm_compute. discriminate.
Defined.

Lemma C6_missing_terminator_witness :
  ∃ msg w',
    decode (image_of odd_strip) (world_of odd_strip) = (Ok msg, w') ∧
    ((∀ j, group j (lsb_stream odd_strip) ≠ ZERO_BYTE) →
     Forall2 (λ c i, bits.bits_to_char (group i (lsb_stream odd_strip)) = Ok c)
       msg (seq 0 (capacity odd_strip / 8))).
Proof.
  apply (C6_missing_terminator (world_of odd_strip) (image_of odd_strip)).
  vm_compute. reflexivity.
Defined.

(** C7 as stated fails: in the image [all_even] the slots 8..15 all have
    LSB 0, but so do the slots 0..7, and decode stops at the first
    terminator with the empty message rather than a message of 8/8 = 1
    character. *)
Lemma C7_counterexample :
  ¬ (grid_at (heap (world_of all_even)) (image_of all_even) = Some all_even →
     8 mod 8 = 0 →
     (∀ i, 8 ≤ i < 8 + 8 →
        ∃ v, slots all_even !! i = Some v ∧ Z.testbit v 0 = false) →
     ∃ msg w',
       decode (image_of all_even) (world_of all_even) = (Ok msg, w') ∧
       length msg = 8 / 8).
Proof.
  intros H. destruct H as (msg & w' & Hrun & Hlen).
  - vm_compute. reflexivity.
  - reflexivity.
  - intros i Hi. do 8 (destruct i as [|i]; [lia|]).
    do 8 (destruct i as [|i]; [vm_compute; eauto|]). lia.
  - vm_compute in Hrun. injection Hrun as <- _. discriminate Hlen.
Qed.

Lemma C7_terminator_detection_witness :
  ∃ msg w',
    decode (image_of letter_a) (world_of letter_a) = (Ok msg, w') ∧
    length msg = 8 / 8.
Proof.
  apply (C7_terminator_detection (world_of letter_a) (image_of letter_a)
           letter_a 8).
  - vm_compute. reflexivity.
  - reflexivity.
  - intros i Hi. do 8 (destruct i as [|i]; [lia|]).
    do 8 (destruct i as [|i]; [vm_compute; eauto|]). lia.
  - intros j Hj. replace j with 0 by (change (8 / 8) with 1 in Hj; lia).
    vm_compute. discriminate.
Defined.

Lemma C8_dimensions_new_grid_witness :
  ∃ out w' g' rows',
    encode (image_of cover) (lit "Hi") (world_of cover) = (Ok out, w') ∧
    grid_at (heap w') out = Some g' ∧
    length g' = length cover ∧
    Forall2 (λ r' r : list pixel, length r' = length r) g' cover ∧
    Forall2 (Forall2 (λ p' p : pixel, length p' = length p)) g' cover ∧
    out ≠ image_of cover ∧
    heap (world_of cover) !! out = None ∧
    heap w' !! out = Some (ImageList rows') ∧
    Forall (λ r, heap (world_of cover) !! r = None) rows' ∧
    heap (world_of cover) ⊆ heap w' ∧
    grid_at (heap w') (image_of cover) = Some cover.
Proof.
  apply (C8_dimensions_new_grid (world_of cover) (image_of cover) cover).
  vm_compute. reflexivity.
Defined.

Lemma C9_bit_groups_well_formed_witness :
  ∃ msg w' calls,
    decode (image_of cover) (world_of cover) = (Ok msg, w') ∧
    codec_calls w' = codec_calls (world_of cover) ++ calls ∧
    Forall (λ b, length b = 8 ∧ Forall is_bit b) calls ∧
    Forall (λ b, ∃ c, bits.bits_to_char b = Ok c) calls.
Proof.
  apply (C9_bit_groups_well_formed (world_of cover) (image_of cover) cover).
  vm_compute. reflexivity.
Defined.

Lemma C10_partial_group_discarded_witness :
  ∃ msg w',
    decode (image_of odd_strip) (world_of odd_strip) = (Ok msg, w') ∧
    length msg = capacity odd_strip / 8 ∧
    Forall2 (λ c i, bits.bits_to_char (group i (lsb_stream odd_strip)) = Ok c)
      msg (seq 0 (capacity odd_strip / 8)) ∧
    codec_calls w' =
      codec_calls (world_of odd_strip)
      ++ groups (capacity odd_strip / 8) (lsb_stream odd_strip) ∧
    (∀ (w2 : world) (image2 : loc) (g2 : grid),
       grid_at (heap w2) image2 = Some g2 →
       lsb_stream g2
         = take (8 * (capacity odd_strip / 8)) (lsb_stream odd_strip) →
       ∃ w2', decode image2 w2 = (Ok msg, w2')).
Proof.
  apply (C10_partial_group_discarded (world_of odd_strip)
           (image_of odd_strip) odd_strip).
  - vm_compute. reflexivity.
  - vm_compute. discriminate.
  - intros j Hz. pose proof (group_zero_length _ _ Hz) as Hlen.
    change (length (lsb_stream odd_strip)) with 9 in Hlen.
    replace j with 0 in Hz by lia. vm_compute in Hz. discriminate Hz.
Defined.
(** * Further properties of the program *)

(** ** The loop of [bits_to_message] *)

Lemma bits_to_message_loop_eq message_bits output index :
  bits_to_message_loop message_bits output index =
  let currByte := slice message_bits index (index + BYTE_LENGTH) in
  if bool_decide (BYTE_LENGTH ≤ length currByte) then
    if bool_decide (currByte = ZERO_BYTE) then ret output
    else
      let! c := call_bits_to_char currByte in
      bits_to_message_loop message_bits (output ++ [c]) (index + BYTE_LENGTH)
  else ret output.
Proof.
  rewrite bits_to_message_loop_equation_1. cbv zeta.
  destruct (decide _) as [Hge|Hlt].
  - rewrite (bool_decide_eq_true_2 _ Hge). reflexivity.
  - rewrite (bool_decide_eq_false_2 _ Hlt). reflexivity.
Qed.

Lemma slice_group s k : slice s (8 * k) (8 * k + BYTE_LENGTH) = group k s.
Proof. unfold slice, group, BYTE_LENGTH. f_equal. lia. Qed.

Lemma group_full k s : BYTE_LENGTH ≤ length (group k s) ↔ 8 * k + 8 ≤ length s.
Proof.
  unfold group, BYTE_LENGTH. rewrite length_take, length_drop. lia.
Qed.

Lemma loop_groups s n : ∀ k out w,
  8 * (k + n) ≤ length s < 8 * (k + n) + 8 →
  bits_to_message_loop s out (8 * k) w =
  read_groups ((λ i, group i s) <$> seq k n) out w.
Proof.
  induction n as [|n IH]; intros k out w Hlen;
    rewrite bits_to_message_loop_eq; cbv zeta; rewrite slice_group.
  - rewrite bool_decide_eq_false_2; [reflexivity|].
    rewrite group_full. lia.
  - rewrite bool_decide_eq_true_2 by (rewrite group_full; lia).
    change (seq k (S n)) with (k :: seq (S k) n).
    rewrite fmap_cons. cbn [read_groups].
    case_bool_decide; [reflexivity|].
    unfold bind. destruct (call_bits_to_char _ w) as [[c|e] w']; [|reflexivity].
    replace (8 * k + BYTE_LENGTH) with (8 * S k) by (unfold BYTE_LENGTH; lia).
    apply IH. lia.
Qed.

Lemma bits_to_message_groups s w :
  bits_to_message s w = read_groups (groups (length s / 8) s) [] w.
Proof.
  unfold bits_to_message, groups.
  apply (loop_groups s (length s / 8) 0 []).
  pose proof (Nat.div_mod_eq (length s) 8).
  pose proof (Nat.mod_upper_bound (length s) 8). lia.
Qed.

Lemma bits_to_char_raise b e : bits.bits_to_char b = Raise e → e = MalformedBitGroup.
Proof.
  unfold bits.bits_to_char.
  destruct b as [|d7 [|d6 [|d5 [|d4 [|d3 [|d2 [|d1 [|d0 [|? ?]]]]]]]]];
    try congruence.
  destruct (bits.bit_of_digit d7); [|congruence].
  destruct (bits.bit_of_digit d6); [|congruence].
  destruct (bits.bit_of_digit d5); [|congruence].
  destruct (bits.bit_of_digit d4); [|congruence].
  destruct (bits.bit_of_digit d3); [|congruence].
  destruct (bits.bit_of_digit d2); [|congruence].
  destruct (bits.bit_of_digit d1); [|congruence].
  destruct (bits.bit_of_digit d0); congruence.
Qed.

Lemma bits_to_char_malformed b :
  ¬ bit_group b → bits.bits_to_char b = Raise MalformedBitGroup.
Proof.
  intros Hb. destruct (bits.bits_to_char b) as [c|e] eqn:E.
  - destruct Hb. by eapply bits_to_char_ok_inv.
  - f_equal. by eapply bits_to_char_raise.
Qed.

Lemma read_groups_app gs1 gs2 out h c :
  Forall (λ b, bit_group b ∧ b ≠ ZERO_BYTE) gs1 →
  read_groups (gs1 ++ gs2) out (World h c) =
  read_groups gs2 (out ++ (byte_char <$> gs1)) (World h (c ++ gs1)).
Proof.
  intros Hgs. revert out c.
  induction Hgs as [|b gs1 [Hb Hnz] _ IH]; intros out c.
  - simpl. by rewrite !app_nil_r.
  - cbn [app read_groups]. rewrite bool_decide_eq_false_2 by done.
    unfold bind, call_bits_to_char. rewrite (byte_char_ok b Hb).
    rewrite IH, fmap_cons, <- !app_assoc. reflexivity.
Qed.

Lemma groups_split j n s :
  j ≤ n → groups n s = groups j s ++ ((λ i, group i s) <$> seq j (n - j)).
Proof.
  intros Hj. unfold groups. rewrite <- fmap_app, <- seq_app.
  do 2 f_equal. lia.
Qed.

Lemma bits_to_message_stops_at s j h c :
  Forall is_bit s →
  stops_at j s →
  bits_to_message s (World h c) =
  (Ok (chars j s), World h (c ++ groups j s)).
Proof.
  intros Hs (Hlen & Hnz & Hz).
  assert (j ≤ length s / 8) as Hj by (apply Nat.div_le_lower_bound; lia).
  rewrite bits_to_message_groups, (groups_split j) by done.
  rewrite read_groups_app.
  - destruct (length s / 8 - j) as [|n] eqn:Hn; [reflexivity|].
    cbn [seq fmap list_fmap read_groups]. rewrite Hz; [reflexivity|].
    pose proof (Nat.Div0.mul_div_le (length s) 8). lia.
  - unfold groups. apply Forall_fmap, Forall_forall.
    intros i [_ Hi]%elem_of_seq. simpl. split; [|apply Hnz; lia].
    apply group_bit_group; [done|lia].
Qed.

(** ** Messages up to the first NUL *)

Lemma before_nul_prefix m : take (length (before_nul m)) m = before_nul m.
Proof.
  induction m as [|c m IH]; [reflexivity|].
  simpl. case_decide; [reflexivity|]. simpl. by rewrite IH.
Qed.

Lemma before_nul_length m : length (before_nul m) ≤ length m.
Proof.
  induction m as [|c m IH]; [done|].
  simpl. case_decide; simpl; lia.
Qed.

Lemma before_nul_no_nul m : NUL ∉ before_nul m.
Proof.
  induction m as [|c m IH]; [apply not_elem_of_nil|].
  simpl. case_decide; [apply not_elem_of_nil|].
  apply not_elem_of_cons. split; [congruence|done].
Qed.

Lemma before_nul_next m :
  length (before_nul m) < length m → m !! length (before_nul m) = Some NUL.
Proof.
  induction m as [|c m IH]; simpl; [lia|].
  case_decide as Hc; simpl; [by rewrite Hc|]. intros Hlen. apply IH. lia.
Qed.

Lemma before_nul_id m : before_nul m = m ↔ NUL ∉ m.
Proof.
  split.
  - intros <-. apply before_nul_no_nul.
  - induction m as [|c m IH]; [done|].
    intros [Hc Hm]%not_elem_of_cons. simpl.
    rewrite decide_False by congruence. by rewrite IH.
Qed.

Lemma before_nul_lookup m i :
  i < length (before_nul m) → ∃ c, m !! i = Some c ∧ c ≠ NUL.
Proof.
  intros Hi. destruct (lookup_lt_is_Some_2 (before_nul m) i Hi) as [c Hc].
  exists c. split.
  - rewrite <- before_nul_prefix in Hc. by rewrite lookup_take_lt in Hc.
  - intros ->. apply (before_nul_no_nul m). by eapply list_elem_of_lookup_2.
Qed.

Lemma group_message_bits m i c :
  m !! i = Some c → group i (message_to_bits m) = bits.char_to_bits c.
Proof.
  intros Hi. rewrite message_to_bits_join.
  rewrite <- (app_nil_r (mjoin _)). by apply group_message.
Qed.

Lemma chars_message_take m j :
  j ≤ length m → chars j (message_to_bits m) = take j m.
Proof.
  intros Hj. apply list_eq. intros i. unfold chars, groups.
  rewrite !list_lookup_fmap.
  destruct (decide (i < j)) as [Hi|Hi].
  - rewrite lookup_seq_lt, lookup_take_lt by done. simpl.
    destruct (lookup_lt_is_Some_2 m i) as [c Hc]; [lia|].
    by rewrite (group_message_bits m i c), byte_char_to_bits.
  - rewrite lookup_seq_ge, lookup_take_ge by lia. reflexivity.
Qed.

(** A bit-string that starts with the bits of [j] characters of [m], none of
    them NUL, and that ends or continues with a terminator after them. *)
Lemma stops_at_message s m j :
  j ≤ length (before_nul m) →
  take (8 * j) s = take (8 * j) (message_to_bits m) →
  8 * j ≤ length s →
  (8 * j + 8 ≤ length s → group j s = ZERO_BYTE) →
  stops_at j s ∧ chars j s = take j (before_nul m).
Proof.
  intros Hj Htake Hlen Hz.
  pose proof (before_nul_length m) as Hlen'.
  assert (groups j s = groups j (message_to_bits m)) as Hgroups.
  { by rewrite <- (groups_take j s), Htake, groups_take. }
  split.
  - split_and!; [done| |done]. intros i Hi.
    assert (group i s = group i (message_to_bits m)) as ->.
    { apply (f_equal (.!! i)) in Hgroups.
      rewrite !groups_lookup in Hgroups by done. congruence. }
    destruct (before_nul_lookup m i) as (c & Hc & Hnul); [lia|].
    rewrite (group_message_bits m i c Hc). intros Heq%char_to_bits_zero. done.
  - unfold chars. rewrite Hgroups. fold (chars j (message_to_bits m)).
    rewrite chars_message_take by lia.
    rewrite <- before_nul_prefix, take_take. f_equal. lia.
Qed.

Lemma char_to_bits_byte_char b :
  bit_group b → bits.char_to_bits (byte_char b) = b.
Proof.
  intros [Hlen Hbits].
  do 8 (destruct b as [|? b]; [discriminate Hlen|]).
  destruct b; [|discriminate Hlen].
  repeat match goal with
         | H : Forall _ (_ :: _) |- _ =>
             apply Forall_cons in H as [[? ->]%is_bit_digit H]
         end.
  unfold byte_char, bits.bits_to_char. rewrite !bit_of_digit_digit.
  reflexivity.
Qed.

Lemma byte_char_nul b : bit_group b → byte_char b = NUL → b = ZERO_BYTE.
Proof.
  intros Hb Hnul. rewrite <- (char_to_bits_byte_char b Hb), Hnul.
  reflexivity.
Qed.

Lemma chars_no_nul j s :
  Forall is_bit s → 8 * j ≤ length s →
  (∀ i, i < j → group i s ≠ ZERO_BYTE) →
  NUL ∉ chars j s.
Proof.
  intros Hs Hlen Hnz [b [Hb Hin]]%list_elem_of_fmap.
  unfold groups in Hin. apply list_elem_of_fmap in Hin as [i [-> Hi]].
  apply elem_of_seq in Hi as [_ Hi]. simpl in Hi.
  apply (Hnz i Hi), byte_char_nul; [|done].
  apply group_bit_group; [done|lia].
Qed.

(** ** Properties of [bits_to_message] and [round_trip] *)

Lemma bits_to_message_message_run (m : str) (w : world) :
  ∃ w', bits_to_message (message_to_bits m) w = (Ok (before_nul m), w').
Proof.
  destruct w as [h c].
  destruct (stops_at_message (message_to_bits m) m (length (before_nul m)))
    as [Hstop Hchars]; [done|done| | |].
  - rewrite message_to_bits_length. pose proof (before_nul_length m). lia.
  - rewrite message_to_bits_length. intros Hlen.
    rewrite (group_message_bits m _ NUL); [reflexivity|].
    apply before_nul_next. lia.
  - rewrite (bits_to_message_stops_at _ _ h c (message_to_bits_is_bit m) Hstop).
    rewrite Hchars, firstn_all. eauto.
Qed.

(** X1: bits_to_message(message_to_bits(m)) returns the part of m before its
    first NUL character, and raises no error; for a message without NUL it
    returns m. *)
Theorem X1_bits_to_message_inverts_message_to_bits (m : str) (w : world) :
  (∃ w', bits_to_message (message_to_bits m) w = (Ok (before_nul m), w')) ∧
  (NUL ∉ m → before_nul m = m).
Proof.
  split; [apply bits_to_message_message_run | apply before_nul_id].
Qed.

(** X2: round_trip(message) returns True exactly when the message contains
    no NUL character; it never raises. *)
Theorem X2_round_trip_iff_no_nul (m : str) (w : world) :
  ∃ w', round_trip m w = (Ok (bool_decide (NUL ∉ m)), w').
Proof.
  destruct (bits_to_message_message_run m w) as [w' Hrun].
  exists w'. unfold round_trip, bind. rewrite Hrun. unfold ret. do 2 f_equal.
  apply bool_decide_ext, before_nul_id.
Qed.

(** X3: decoding an image gives the same result, and makes the same calls
    to bits_to_char, as bits_to_message on the string of the LSBs of its
    channel slots in traversal order. *)
Theorem X3_decode_agrees_with_bits_to_message (w : world) (image : loc) (g : grid) :
  grid_at (heap w) image = Some g →
  decode image w = bits_to_message (lsb_stream g) w.
Proof.
  destruct w as [h c]. cbn [heap]. intros Hg.
  destruct (decode_total image g h c Hg) as (j & Hstop & -> & _).
  symmetry. apply bits_to_message_stops_at; [apply lsb_is_bit|done].
Qed.

(** X4: bits_to_message ignores a trailing group of fewer than 8
    characters, whatever they are: after a string whose length is a multiple
    of 8, up to 7 more characters change nothing.  In particular a string
    shorter than 8 characters, like the empty string, gives the empty
    message. *)
Theorem X4_bits_to_message_ignores_partial_group (s t : str) (w : world) :
  length s mod 8 = 0 →
  length t < 8 →
  bits_to_message (s ++ t) w = bits_to_message s w.
Proof.
  intros Hs Ht. rewrite !bits_to_message_groups. f_equal.
  pose proof (Nat.div_mod_eq (length s) 8) as Hdiv.
  assert (length (s ++ t) / 8 = length s / 8) as ->.
  { rewrite length_app. symmetry.
    apply (Nat.div_unique _ 8 _ (length t)); lia. }
  rewrite <- (groups_take _ (s ++ t)), <- (groups_take _ s).
  f_equal. rewrite take_app_le by lia. reflexivity.
Qed.

(** X5: when complete group number i of the string is not made of 8 binary
    digits and the groups before it are well formed and not the terminator,
    bits_to_message raises the error of bits_to_char on that group, after
    calling bits_to_char on the groups 0..i and on nothing else. *)
Theorem X5_bits_to_message_raises_on_malformed_group (s : str) (i : nat) (w : world) :
  8 * i + 8 ≤ length s →
  (∀ k, k < i → bit_group (group k s) ∧ group k s ≠ ZERO_BYTE) →
  ¬ bit_group (group i s) →
  bits_to_message s w =
  (Raise MalformedBitGroup,
   World (heap w) (codec_calls w ++ groups (S i) s)).
Proof.
  destruct w as [h c]. cbn [heap codec_calls]. intros Hlen Hok Hbad.
  assert (S i ≤ length s / 8) as Hi by (apply Nat.div_le_lower_bound; lia).
  rewrite bits_to_message_groups, (groups_split i) by lia.
  rewrite read_groups_app.
  - destruct (length s / 8 - i) as [|n] eqn:Hn; [lia|].
    cbn [seq fmap list_fmap read_groups].
    rewrite bool_decide_eq_false_2.
    + unfold bind, call_bits_to_char. cbn [heap codec_calls].
      rewrite bits_to_char_malformed by done. do 2 f_equal.
      unfold groups. rewrite seq_S, fmap_app, <- app_assoc. reflexivity.
    + intros Hz. apply Hbad. rewrite Hz. split; [reflexivity|].
      repeat (apply Forall_cons_2; [by left|]). apply Forall_nil_2.
  - unfold groups. apply Forall_fmap, Forall_forall.
    intros k [_ Hk]%elem_of_seq. apply Hok. simpl in Hk. lia.
Qed.

(** X6: on a string of binary digits bits_to_message raises no error; the
    message it returns has at most len/8 characters and contains no NUL. *)
Theorem X6_bits_to_message_safe_on_binary_digits (s : str) (w : world) :
  Forall is_bit s →
  ∃ out w',
    bits_to_message s w = (Ok out, w') ∧
    length out ≤ length s / 8 ∧
    NUL ∉ out.
Proof.
  destruct w as [h c]. intros Hs.
  destruct (stops_at_exists s) as [j Hstop].
  eexists _, _. split; [by apply bits_to_message_stops_at|].
  destruct Hstop as (Hlen & Hnz & _). split.
  - rewrite chars_length. apply Nat.div_le_lower_bound; lia.
  - by apply chars_no_nul.
Qed.

(** ** Composition of [encode] and [decode] *)

Lemma lsb_stream_length (g : grid) : length (lsb_stream g) = capacity g.
Proof. apply length_fmap. Qed.

Lemma stops_at_embedded (g : grid) (m : str) :
  let s := resize (capacity g) "0"%char (message_to_bits m) in
  let j := (capacity g / 8) `min` length (before_nul m) in
  stops_at j s ∧ chars j s = take (capacity g / 8) (before_nul m).
Proof.
  intros s j.
  pose proof (Nat.Div0.mul_div_le (capacity g) 8) as Hcap.
  pose proof (before_nul_length m) as Ha.
  pose proof (message_to_bits_length m) as Hbits.
  assert (length s = capacity g) as Hs by apply length_resize.
  destruct (stops_at_message s m j) as [Hstop Hchars].
  - lia.
  - unfold s. rewrite take_resize_le, resize_le by lia. reflexivity.
  - lia.
  - rewrite Hs. intros Hlen.
    assert (j = length (before_nul m)) as Hj.
    { assert (S j ≤ capacity g / 8); [|lia].
      apply Nat.div_le_lower_bound; lia. }
    destruct (decide (length (before_nul m) < length m)) as [Hlt|Hge].
    + rewrite <- (group_take j (8 * j + 8)) by lia.
      unfold s. rewrite take_resize_le, resize_le by lia.
      rewrite group_take by lia.
      rewrite (group_message_bits m j NUL); [reflexivity|].
      rewrite Hj. by apply before_nul_next.
    + unfold s, group. rewrite resize_ge by lia.
      rewrite drop_app_length' by lia. rewrite take_replicate.
      replace (8 `min` _) with 8 by lia. reflexivity.
  - split; [done|]. rewrite Hchars. unfold j.
    rewrite <- (take_take _ (capacity g / 8)). 
    rewrite (take_ge (before_nul m) (length (before_nul m))) by done.
    reflexivity.
Qed.

(** X7: for every grid and every message, decode(encode(g, m)) is the part
    of m before its first NUL character, cut to floor(capacity / 8)
    characters.  So a NUL-free message that fits (8 * len(m) <= capacity) is
    recovered whole, with or without room for a terminator, and a longer one
    is recovered as its first capacity / 8 characters. *)
Theorem X7_decode_encode_truncates (w : world) (image : loc) (g : grid) (m : str) :
  grid_at (heap w) image = Some g →
  ∃ w', (let! encoded := encode image m in decode encoded) w
        = (Ok (take (capacity g / 8) (before_nul m)), w').
Proof.
  destruct w as [h c]. cbn [heap]. intros Hg.
  destruct (encode_run image m g h c Hg)
    as (h' & rows' & Hrun & _ & _ & _ & Hout).
  unfold bind. rewrite Hrun.
  destruct (stops_at_embedded g m) as [Hstop Hchars].
  rewrite <- lsb_stream_embed in Hstop, Hchars
    by apply message_to_bits_is_bit.
  rewrite (decode_stops_at _ _ h' c _ Hout Hstop), Hchars. eauto.
Qed.

(** ** Channel values after [encode] *)

Lemma shiftr_1_bounds (e o : Z) :
  (e ≫ 1 = o ≫ 1)%Z →
  (Z.abs (e - o) ≤ 1)%Z ∧ ((0 ≤ o ≤ 255)%Z → (0 ≤ e ≤ 255)%Z).
Proof.
  rewrite !Z.shiftr_div_pow2 by lia. change (2 ^ 1)%Z with 2%Z. intros H.
  pose proof (Z.div_mod e 2). pose proof (Z.div_mod o 2).
  pose proof (Z.mod_pos_bound e 2). pose proof (Z.mod_pos_bound o 2). lia.
Qed.

(** X8: every channel value of encode(g, m) differs from the corresponding
    value of g by at most 1, and is in 0..255 whenever the original is. *)
Theorem X8_encode_values_stay_in_range (w : world) (image : loc) (g : grid) (m : str) :
  grid_at (heap w) image = Some g →
  ∃ out w' g',
    encode image m w = (Ok out, w') ∧
    grid_at (heap w') out = Some g' ∧
    Forall2 (Forall2 (Forall2 (λ encoded original : Z,
      (Z.abs (encoded - original) ≤ 1)%Z ∧
      ((0 ≤ original ≤ 255)%Z → (0 ≤ encoded ≤ 255)%Z)))) g' g.
Proof.
  destruct w as [h c]. cbn [heap]. intros Hg.
  destruct (encode_run image m g h c Hg)
    as (h' & rows' & Hrun & _ & _ & _ & Hout).
  eexists _, _, _. split_and!; [exact Hrun | exact Hout |].
  eapply Forall2_impl; [apply embed_grid_shiftr|]. intros r' r Hr.
  eapply Forall2_impl; [exact Hr|]. intros p' p Hp.
  eapply Forall2_impl; [exact Hp|]. intros e o. apply shiftr_1_bounds.
Qed.

(** ** Encoding twice *)

Lemma set_bit_set_bit n b1 b2 :
  bits.set_bit (bits.set_bit n b1 0) b2 0 = bits.set_bit n b2 0.
Proof.
  apply Z.bits_inj'. intros i Hi.
  destruct (decide (i = 0%Z)) as [->|Hne].
  - by rewrite !set_bit_testbit.
  - assert (∀ v b, Z.testbit (bits.set_bit v b 0) i = Z.testbit v i) as Hother.
    { intros v b. unfold bits.set_bit. destruct (bits.bit_is_one b).
      - apply Z.setbit_neq; lia.
      - apply Z.clearbit_neq. lia. }
    by rewrite !Hother.
Qed.

Lemma embed_slot_embed_slot bs1 bs2 i1 i2 v :
  embed_slot bs2 i2 (embed_slot bs1 i1 v) = embed_slot bs2 i2 v.
Proof.
  unfold embed_slot. destruct (bs2 !! i2), (bs1 !! i1); apply set_bit_set_bit.
Qed.

Lemma embed_pixel_embed_pixel bs1 bs2 i1 i2 (p : pixel) :
  embed_pixel bs2 i2 (embed_pixel bs1 i1 p) = embed_pixel bs2 i2 p.
Proof.
  unfold embed_pixel. apply list_eq. intros k.
  rewrite !list_lookup_imap. destruct (p !! k); simpl; [|done].
  by rewrite embed_slot_embed_slot.
Qed.

Lemma embed_row_embed_row bs1 bs2 (r : list pixel) : ∀ i1 i2,
  embed_row bs2 i2 (embed_row bs1 i1 r) = embed_row bs2 i2 r.
Proof.
  induction r as [|p r IH]; intros i1 i2; [reflexivity|].
  simpl. by rewrite embed_pixel_embed_pixel, embed_pixel_length, IH.
Qed.

Lemma embed_row_slots_length bs i (r : list pixel) :
  length (mjoin (embed_row bs i r)) = length (mjoin r).
Proof. rewrite embed_row_slots. apply length_imap. Qed.

Lemma embed_grid_embed_grid bs1 bs2 (g : grid) : ∀ i1 i2,
  embed_grid bs2 i2 (embed_grid bs1 i1 g) = embed_grid bs2 i2 g.
Proof.
  induction g as [|r g IH]; intros i1 i2; [reflexivity|].
  simpl. by rewrite embed_row_embed_row, embed_row_slots_length, IH.
Qed.

(** X9: encoding a message into an already encoded image gives the same
    pixel grid as encoding it into the original image: nothing of an earlier
    message survives.  With m1 = m2, encoding is idempotent. *)
Theorem X9_encode_overwrites_previous_message (w : world) (image : loc) (g : grid) (m1 m2 : str) :
  grid_at (heap w) image = Some g →
  ∃ out1 w1 out2 w2 out w' g2,
    encode image m1 w = (Ok out1, w1) ∧
    encode out1 m2 w1 = (Ok out2, w2) ∧
    grid_at (heap w2) out2 = Some g2 ∧
    encode image m2 w = (Ok out, w') ∧
    grid_at (heap w') out = Some g2.
Proof.
  destruct w as [h c]. cbn [heap]. intros Hg.
  destruct (encode_run image m1 g h c Hg)
    as (h1 & rows1 & Hrun1 & _ & _ & _ & Hout1).
  destruct (encode_run _ m2 _ h1 c Hout1)
    as (h2 & rows2 & Hrun2 & _ & _ & _ & Hout2).
  destruct (encode_run image m2 g h c Hg)
    as (h' & rows' & Hrun & _ & _ & _ & Hout).
  rewrite embed_grid_embed_grid in Hout2.
  eexists _, _, _, _, _, _, _.
  split_and!; [exact Hrun1 | exact Hrun2 | exact Hout2 | exact Hrun | exact Hout].
Qed.

(** ** The bit-string of a message, again *)

(** X10: message_to_bits is injective: two messages with the same
    bit-string are equal. *)
Theorem X10_message_to_bits_injective (m1 m2 : str) :
  message_to_bits m1 = message_to_bits m2 → m1 = m2.
Proof.
  intros Heq.
  assert (length m1 = length m2) as Hlen.
  { apply (f_equal length) in Heq. rewrite !message_to_bits_length in Heq. lia. }
  rewrite <- (firstn_all m1), <- (firstn_all m2).
  rewrite <- !chars_message_take by done. by rewrite Heq, Hlen.
Qed.

(** X11: the bit-string of a concatenation is the concatenation of the
    bit-strings; a message of n characters has a bit-string of exactly 8 n
    characters, all of them binary digits. *)
Theorem X11_message_to_bits_concatenates (m1 m2 : str) :
  message_to_bits (m1 ++ m2) = message_to_bits m1 ++ message_to_bits m2 ∧
  length (message_to_bits m1) = 8 * length m1 ∧
  Forall is_bit (message_to_bits m1).
Proof.
  split_and!.
  - by rewrite !message_to_bits_join, fmap_app, join_app.
  - apply message_to_bits_length.
  - apply message_to_bits_is_bit.
Qed.

(** ** What [decode] never returns *)

(** X12: for every grid, the message returned by decode has at most
    floor(capacity / 8) characters and never contains a NUL character, and
    decode leaves the heap as it found it. *)
Theorem X12_decode_output_bounds (w : world) (image : loc) (g : grid) :
  grid_at (heap w) image = Some g →
  ∃ msg w',
    decode image w = (Ok msg, w') ∧
    length msg ≤ capacity g / 8 ∧
    (NUL ∉ msg) ∧
    heap w' = heap w.
Proof.
  destruct w as [h c]. cbn [heap]. intros Hg.
  destruct (decode_total image g h c Hg) as (j & Hstop & Hrun & _).
  eexists _, _. split; [exact Hrun|].
  destruct Hstop as (Hlen & Hnz & _). rewrite lsb_stream_length in Hlen.
  split_and!.
  - rewrite chars_length. apply Nat.div_le_lower_bound; lia.
  - apply chars_no_nul; [apply lsb_is_bit | | done]. by rewrite lsb_stream_length.
  - reflexivity.
Qed.

(** ** Reading an image into the heap *)

Lemma bind_ok {A B} (m : M A) (k : A → M B) w a w' :
  m w = (Ok a, w') → bind m k w = k a w'.
Proof. intros H. unfold bind. by rewrite H. Qed.

Lemma alloc_rows_run (g : grid) : ∀ (acc : list loc) (gacc : grid) h c,
  Forall2 (λ l ps, row_at h l = Some ps) acc gacc →
  ∃ rows h',
    for_each g (λ row rows,
      let! r := new_list (RowList row) in ret (rows ++ [r])) acc (World h c)
      = (Ok rows, World h' c) ∧
    Forall2 (λ l ps, row_at h' l = Some ps) rows (gacc ++ g) ∧
    h ⊆ h'.
Proof.
  induction g as [|row g IH]; intros acc gacc h c Hacc.
  - exists acc, h. rewrite app_nil_r. done.
  - rewrite for_each_cons. unfold bind, new_list, ret. cbn [heap codec_calls].
    pose proof (fresh_lookup h) as Hfresh.
    set (r := fresh (dom h)) in *.
    destruct (IH (acc ++ [r]) (gacc ++ [row]) (<[r := RowList row]> h) c)
      as (rows & h' & Hrun & Hrows & Hsub).
    + apply Forall2_app.
      * eapply Forall2_impl; [exact Hacc|]. intros l ps Hl. simpl in Hl.
        rewrite row_at_insert_ne; [done|].
        apply row_at_Some in Hl. congruence.
      * repeat constructor. apply row_at_insert_eq.
    + exists rows, h'. split_and!; [exact Hrun| |].
      * by rewrite <- app_assoc in Hrows.
      * etrans; [|exact Hsub]. by apply insert_subseteq.
Qed.

Lemma alloc_grid_run (g : grid) h c :
  ∃ l h',
    alloc_grid g (World h c) = (Ok l, World h' c) ∧
    grid_at h' l = Some g ∧
    h ⊆ h'.
Proof.
  destruct (alloc_rows_run g [] [] h c) as (rows & h1 & Hrun & Hrows & Hsub);
    [constructor|].
  unfold alloc_grid. rewrite (bind_ok _ _ _ _ _ Hrun). unfold new_list.
  cbn [heap codec_calls].
  pose proof (fresh_lookup h1) as Hfresh.
  set (l := fresh (dom h1)) in *.
  eexists _, _. split_and!; [reflexivity| |].
  - unfold grid_at. rewrite lookup_insert_eq. apply mapM_Some.
    eapply Forall2_impl; [exact Hrows|]. intros r ps Hr. simpl in Hr.
    rewrite row_at_insert_ne; [done|]. apply row_at_Some in Hr. congruence.
  - etrans; [exact Hsub|]. by apply insert_subseteq.
Qed.

(** ** File names *)

Lemma str_last_app stem ext n :
  length ext = n → str_last n (stem ++ ext) = ext.
Proof.
  intros <-. unfold str_last. rewrite length_app.
  replace (length stem + length ext - length ext) with (length stem) by lia.
  apply drop_app_length.
Qed.

Lemma str_but_last_app stem ext n :
  length ext = n → str_but_last n (stem ++ ext) = stem.
Proof.
  intros <-. unfold str_but_last. rewrite length_app.
  replace (length stem + length ext - length ext) with (length stem) by lia.
  apply take_app_length.
Qed.

Lemma str_split_last n s : s = str_but_last n s ++ str_last n s.
Proof. unfold str_but_last, str_last. by rewrite take_drop. Qed.

Lemma str_last_length n s : length (str_last n s) = n `min` length s.
Proof. unfold str_last. rewrite length_drop. lia. Qed.

Lemma lower_char_dot c : lower_char c = "."%char → c = "."%char.
Proof.
  destruct c as [[] [] [] [] [] [] [] []]; vm_compute; congruence.
Qed.

Lemma lower_char_p c : lower_char c = "p"%char ↔ c = "p"%char ∨ c = "P"%char.
Proof.
  split; [|by intros [-> | ->]].
  destruct c as [[] [] [] [] [] [] [] []]; vm_compute; intuition congruence.
Qed.

Lemma lower_char_n c : lower_char c = "n"%char ↔ c = "n"%char ∨ c = "N"%char.
Proof.
  split; [|by intros [-> | ->]].
  destruct c as [[] [] [] [] [] [] [] []]; vm_compute; intuition congruence.
Qed.

Lemma lower_char_g c : lower_char c = "g"%char ↔ c = "g"%char ∨ c = "G"%char.
Proof.
  split; [|by intros [-> | ->]].
  destruct c as [[] [] [] [] [] [] [] []]; vm_compute; intuition congruence.
Qed.

Lemma make_output_filename_ext f :
  lower (str_last 4 (make_output_filename f)) = PNG.
Proof.
  unfold make_output_filename. rewrite !app_assoc.
  by rewrite str_last_app.
Qed.

Lemma make_output_filename_length f :
  length (make_output_filename f) = (length f - 4) + 12.
Proof.
  unfold make_output_filename, str_but_last.
  rewrite !length_app, length_take. simpl. lia.
Qed.

Lemma make_output_filename_ne f : make_output_filename f ≠ f.
Proof.
  intros Heq. apply (f_equal length) in Heq.
  rewrite make_output_filename_length in Heq. lia.
Qed.

(** ** [format] on the messages of the program *)

Lemma format_FNF_ERROR f w :
  format FNF_ERROR [f] w = (Ok (lit "The file " ++ f ++ lit " was not found"), w).
Proof. reflexivity. Qed.

Lemma format_ENCODE_OUT f w :
  format ENCODE_OUT [f] w = (Ok (lit "Encoded your message to " ++ f), w).
Proof. unfold format. cbn. by rewrite app_nil_r. Qed.

Lemma format_DISPLAY_MESSAGE f msg w :
  format DISPLAY_MESSAGE [f; msg] w =
  (Ok (lit "The file " ++ f ++ lit " is encoded with the message:"
       ++ ["010"%char; "010"%char] ++ msg), w).
Proof. unfold format. cbn. by rewrite app_nil_r. Qed.

Lemma extension_accepted f :
  lower (str_last 4 f) = PNG ↔
  ∃ stem a b c,
    f = stem ++ ["."%char; a; b; c] ∧
    (a = "p"%char ∨ a = "P"%char) ∧
    (b = "n"%char ∨ b = "N"%char) ∧
    (c = "g"%char ∨ c = "G"%char).
Proof.
  split.
  - intros Hext.
    assert (length (str_last 4 f) = 4) as Hlen.
    { apply (f_equal length) in Hext. unfold lower in Hext.
      by rewrite length_fmap in Hext. }
    destruct (str_last 4 f) as [|d [|a [|b [|c [|? ?]]]]] eqn:Hlast;
      try discriminate Hlen.
    unfold lower, PNG in Hext. cbn [fmap list_fmap lit list_ascii_of_string] in Hext.
    injection Hext as Hd%lower_char_dot Ha%lower_char_p Hb%lower_char_n
      Hc%lower_char_g.
    subst d. exists (str_but_last 4 f), a, b, c. split_and!; [|done..].
    rewrite <- Hlast. apply str_split_last.
  - intros (stem & a & b & c & -> & Ha & Hb & Hc).
    rewrite str_last_app by done.
    destruct Ha as [-> | ->], Hb as [-> | ->], Hc as [-> | ->]; reflexivity.
Qed.

(** ** Runs of the command-line program *)

Lemma read_image_ok f (g : grid) h c fs out :
  fs !! f = Some g →
  ∃ l h',
    read_image f (Process (World h c) fs out)
      = (Returns l, Process (World h' c) fs out) ∧
    grid_at h' l = Some g.
Proof.
  intros Hf. destruct (alloc_grid_run g h c) as (l & h' & Hrun & Hg & _).
  exists l, h'. split; [|done].
  unfold read_image, lift. cbn [files mem stdout]. by rewrite Hf, Hrun.
Qed.

Lemma open_image_rejects f p :
  lower (str_last 4 f) ≠ PNG →
  open_image f p =
  (Fails SystemExit, Process (mem p) (files p) (stdout p ++ [PNG_ERROR])).
Proof.
  intros Hext. unfold open_image, io_bind.
  rewrite bool_decide_eq_true_2 by done. reflexivity.
Qed.

Lemma open_image_missing f p :
  lower (str_last 4 f) = PNG →
  files p !! f = None →
  open_image f p =
  (Fails SystemExit,
   Process (mem p) (files p)
     (stdout p ++ [lit "The file " ++ f ++ lit " was not found"])).
Proof.
  intros Hext Hf. unfold open_image, io_bind.
  rewrite bool_decide_eq_false_2 by (by intros []).
  unfold io_ret, try_except_IOError, io_bind, open. rewrite Hf.
  unfold lift. rewrite format_FNF_ERROR. destruct p as [[h c] fs out].
  reflexivity.
Qed.

Lemma open_image_ok f (g : grid) h c fs out :
  lower (str_last 4 f) = PNG →
  fs !! f = Some g →
  ∃ l h',
    open_image f (Process (World h c) fs out)
      = (Returns l, Process (World h' c) fs out) ∧
    grid_at h' l = Some g.
Proof.
  intros Hext Hf.
  destruct (read_image_ok f g h c fs out Hf) as (l & h' & Hrun & Hg).
  exists l, h'. split; [|done].
  unfold open_image, io_bind.
  rewrite bool_decide_eq_false_2 by (by intros []).
  unfold io_ret, try_except_IOError, io_bind, open. cbn [files].
  rewrite Hf, Hrun. reflexivity.
Qed.

Lemma main_encode_run f (g : grid) m h c fs out :
  lower (str_last 4 f) = PNG →
  fs !! f = Some g →
  m ≠ [] →
  ∃ h',
    main (Namespace f (Some m)) (Process (World h c) fs out) =
    (Returns (),
     Process (World h' c)
       (<[make_output_filename f := embed_grid (message_to_bits m) 0 g]> fs)
       (out ++ [lit "Encoded your message to " ++ make_output_filename f])).
Proof.
  intros Hext Hf Hm.
  destruct (open_image_ok f g h c fs out Hext Hf) as (l & h1 & Hopen & Hg).
  destruct (encode_run l m g h1 c Hg) as (h2 & rows & Hrun & _ & _ & _ & Hout).
  exists h2. unfold main, io_bind, get_user_input, io_bind.
  cbn [args_image args_encode]. rewrite Hopen.
  destruct m as [|ch m]; [done|]. cbn [truthy io_ret default from_option id].
  unfold lift at 1. cbn [mem files stdout]. rewrite Hrun.
  unfold write_image. cbn [mem heap files stdout]. rewrite Hout.
  unfold lift. cbn [mem files stdout]. rewrite format_ENCODE_OUT.
  reflexivity.
Qed.

Lemma main_decode_run f (g : grid) enc j h c fs out :
  lower (str_last 4 f) = PNG →
  fs !! f = Some g →
  truthy enc = false →
  stops_at j (lsb_stream g) →
  ∃ h',
    main (Namespace f enc) (Process (World h c) fs out) =
    (Returns (),
     Process (World h' (c ++ groups j (lsb_stream g))) fs
       (out ++ [lit "The file " ++ f
                ++ lit " is encoded with the message:"
                ++ ["010"%char; "010"%char] ++ chars j (lsb_stream g)])).
Proof.
  intros Hext Hf Henc Hstop.
  destruct (open_image_ok f g h c fs out Hext Hf) as (l & h1 & Hopen & Hg).
  destruct (read_image_ok f g h1 c fs out Hf) as (l2 & h2 & Hread & Hg2).
  exists h2. unfold main, io_bind, get_user_input, io_bind.
  cbn [args_image args_encode]. rewrite Hopen, Henc.
  cbn [truthy io_ret]. rewrite Hread.
  unfold lift. cbn [mem files stdout].
  rewrite (decode_stops_at l2 g h2 c j Hg2 Hstop), format_DISPLAY_MESSAGE.
  reflexivity.
Qed.

(** ** Properties of the command-line program *)

(** X13: open_image prints the "not in .png format" error and exits exactly
    when the file name does not end in a dot followed by p, n, g in either
    letter case; names shorter than 4 characters are always rejected.  In
    that case nothing else is printed, and it makes no difference which
    files exist. *)
Theorem X13_open_image_extension_test (f : str) (p : process) :
  open_image f p =
    (Fails SystemExit, Process (mem p) (files p) (stdout p ++ [PNG_ERROR]))
  ↔ ¬ ∃ stem a b c,
        f = stem ++ ["."%char; a; b; c] ∧
        (a = "p"%char ∨ a = "P"%char) ∧
        (b = "n"%char ∨ b = "N"%char) ∧
        (c = "g"%char ∨ c = "G"%char).
Proof.
  rewrite <- extension_accepted. split.
  - intros Hrun Hext. destruct p as [[h c] fs out].
    destruct (fs !! f) as [g|] eqn:Hf.
    + destruct (open_image_ok f g h c fs out Hext Hf) as (l & h' & Hok & _).
      rewrite Hok in Hrun. discriminate Hrun.
    + rewrite (open_image_missing f (Process (World h c) fs out) Hext Hf)
        in Hrun.
      cbn [mem files stdout] in Hrun.
      injection Hrun as Hout%app_inv_head. discriminate Hout.
  - apply open_image_rejects.
Qed.

(** X14: when the name passes the extension test and there is no such
    file, the program prints "The file <name> was not found" and exits,
    whether or not a message was given; no file is written. *)
Theorem X14_main_missing_file (args : namespace) (p : process) :
  lower (str_last 4 (args_image args)) = PNG →
  files p !! args_image args = None →
  main args p =
  (Fails SystemExit,
   Process (mem p) (files p)
     (stdout p ++ [lit "The file " ++ args_image args
                   ++ lit " was not found"])).
Proof.
  intros Hext Hf. unfold main, io_bind at 1, get_user_input, io_bind at 1.
  rewrite (open_image_missing _ _ Hext Hf). reflexivity.
Qed.

(** X15: with a message that is not empty and an existing image file, the
    program ends normally, writes the encoded grid to
    make_output_filename(name) and to no other file, leaves the input file as
    it was, and prints "Encoded your message to <output name>". *)
Theorem X15_main_encode_writes_output (f : str) (g : grid) (m : str) (p : process) :
  lower (str_last 4 f) = PNG →
  files p !! f = Some g →
  m ≠ [] →
  ∃ p',
    main (Namespace f (Some m)) p = (Returns (), p') ∧
    files p' =
      <[make_output_filename f := embed_grid (message_to_bits m) 0 g]>
        (files p) ∧
    files p' !! f = Some g ∧
    stdout p' =
      stdout p ++ [lit "Encoded your message to " ++ make_output_filename f].
Proof.
  destruct p as [[h c] fs out]. cbn [files stdout]. intros Hext Hf Hm.
  destruct (main_encode_run f g m h c fs out Hext Hf Hm) as [h' Hrun].
  eexists. split; [exact Hrun|]. cbn [files stdout]. split_and!; [done| |done].
  rewrite lookup_insert_ne; [done|]. apply make_output_filename_ne.
Qed.

(** X16: without --encode, and also with an empty --encode message, the
    program decodes: it prints "The file <name> is encoded with the
    message:", an empty line and the characters of the LSB groups before the
    first terminator, and writes no file. *)
Theorem X16_main_without_message_decodes (f : str) (g : grid) (enc : option str)
    (j : nat) (p : process) :
  enc = None ∨ enc = Some [] →
  lower (str_last 4 f) = PNG →
  files p !! f = Some g →
  stops_at j (lsb_stream g) →
  ∃ p',
    main (Namespace f enc) p = (Returns (), p') ∧
    files p' = files p ∧
    stdout p' =
      stdout p ++ [lit "The file " ++ f
                   ++ lit " is encoded with the message:"
                   ++ ["010"%char; "010"%char] ++ chars j (lsb_stream g)].
Proof.
  destruct p as [[h c] fs out]. cbn [files stdout]. intros Henc Hext Hf Hstop.
  destruct (main_decode_run f g enc j h c fs out Hext Hf) as [h' Hrun];
    [by destruct Henc as [-> | ->] | done |].
  eexists. split; [exact Hrun|]. done.
Qed.

(** X17: after a run that encodes message m into the image file f, a run on
    make_output_filename(f) without --encode prints the part of m before its
    first NUL, cut to floor(capacity / 8) characters: the message itself when
    it is NUL-free and fits. *)
Theorem X17_main_end_to_end (f : str) (g : grid) (m : str) (p : process) :
  lower (str_last 4 f) = PNG →
  files p !! f = Some g →
  m ≠ [] →
  ∃ p1,
    main (Namespace f (Some m)) p = (Returns (), p1) ∧
    ∀ (mem2 : world) (out2 : list str),
      ∃ p2,
        main (Namespace (make_output_filename f) None)
          (Process mem2 (files p1) out2) = (Returns (), p2) ∧
        stdout p2 =
          out2 ++ [lit "The file " ++ make_output_filename f
                   ++ lit " is encoded with the message:"
                   ++ ["010"%char; "010"%char]
                   ++ take (capacity g / 8) (before_nul m)].
Proof.
  destruct p as [[h c] fs out]. cbn [files]. intros Hext Hf Hm.
  destruct (main_encode_run f g m h c fs out Hext Hf Hm) as [h' Hrun].
  eexists. split; [exact Hrun|]. cbn [files]. intros [h2 c2] out2.
  destruct (stops_at_embedded g m) as [Hstop Hchars].
  rewrite <- lsb_stream_embed in Hstop, Hchars
    by apply message_to_bits_is_bit.
  destruct (main_decode_run (make_output_filename f) _ None _ h2 c2
              (<[make_output_filename f := embed_grid (message_to_bits m) 0 g]> fs)
              out2 (make_output_filename_ext f) (lookup_insert_eq _ _ _)
              eq_refl Hstop) as [h3 Hrun2].
  eexists. split; [exact Hrun2|]. cbn [stdout]. by rewrite Hchars.
Qed.

(** X18: make_output_filename replaces the last four characters of the
    name, whatever they are, by "_encoded.png"; two names that differ only in
    their last four characters (a.png and a.PNG) get the same output name. *)
Theorem X18_make_output_filename_replaces_extension (stem e1 e2 : str) :
  length e1 = 4 →
  length e2 = 4 →
  make_output_filename (stem ++ e1) = stem ++ lit "_encoded.png" ∧
  make_output_filename (stem ++ e1) = make_output_filename (stem ++ e2).
Proof.
  intros H1 H2. unfold make_output_filename.
  rewrite !str_but_last_app by done. done.
Qed.

(** X19: the name returned by make_output_filename always passes the
    extension test of open_image and is never the input name; for a name of
    at most 4 characters it is "_encoded.png". *)
Theorem X19_make_output_filename_accepted (f : str) :
  lower (str_last 4 (make_output_filename f)) = PNG ∧
  make_output_filename f ≠ f ∧
  (length f ≤ 4 → make_output_filename f = lit "_encoded.png").
Proof.
  split_and!.
  - apply make_output_filename_ext.
  - apply make_output_filename_ne.
  - intros Hlen. unfold make_output_filename, str_but_last.
    replace (length f - 4) with 0 by lia. by rewrite take_0.
Qed.

(** ** Examples and witnesses for the further properties *)

Example bits_to_message_Hi :
  (bits_to_message (lit "010010000110100100000000011") empty_world).1
  = Ok (lit "Hi").
Proof. vm_compute. reflexivity. Qed.

Example main_rejects_jpg :
  (main (Namespace (lit "cat.jpg") (Some (lit "Hi"))) demo_process).1
  = Fails SystemExit.
Proof. vm_compute. reflexivity. Qed.

Lemma X3_decode_agrees_with_bits_to_message_witness :
  decode (image_of cover) (world_of cover)
  = bits_to_message (lsb_stream cover) (world_of cover).
Proof.
  apply (X3_decode_agrees_with_bits_to_message (world_of cover)
           (image_of cover) cover).
  vm_compute. reflexivity.
Defined.

Lemma X4_bits_to_message_ignores_partial_group_witness :
  bits_to_message (lit "01001000" ++ lit "0110") empty_world
  = bits_to_message (lit "01001000") empty_world.
Proof.
  apply (X4_bits_to_message_ignores_partial_group (lit "01001000")
           (lit "0110") empty_world).
  - reflexivity.
  - vm_compute. lia.
Defined.

Lemma X5_bits_to_message_raises_on_malformed_group_witness :
  bits_to_message (lit "0100100a") empty_world =
  (Raise MalformedBitGroup,
   World (heap empty_world)
     (codec_calls empty_world ++ groups 1 (lit "0100100a"))).
Proof.
  apply (X5_bits_to_message_raises_on_malformed_group (lit "0100100a") 0
           empty_world).
  - vm_compute. lia.
  - intros k Hk. lia.
  - intros [_ Hbits].
    apply (Forall_lookup_1 _ _ 7 "a"%char) in Hbits; [|reflexivity].
    destruct Hbits; discriminate.
Defined.

Lemma X6_bits_to_message_safe_on_binary_digits_witness :
  ∃ out w',
    bits_to_message (message_to_bits (lit "Hi")) empty_world = (Ok out, w') ∧
    length out ≤ length (message_to_bits (lit "Hi")) / 8 ∧
    NUL ∉ out.
Proof.
  apply (X6_bits_to_message_safe_on_binary_digits
           (message_to_bits (lit "Hi")) empty_world).
  apply message_to_bits_is_bit.
Defined.

Lemma X7_decode_encode_truncates_witness :
  ∃ w', (let! encoded := encode (image_of odd_strip) (lit "Hi") in
         decode encoded) (world_of odd_strip)
        = (Ok (take (capacity odd_strip / 8) (before_nul (lit "Hi"))), w').
Proof.
  apply (X7_decode_encode_truncates (world_of odd_strip) (image_of odd_strip)
           odd_strip).
  vm_compute. reflexivity.
Defined.

Lemma X8_encode_values_stay_in_range_witness :
  ∃ out w' g',
    encode (image_of cover) (lit "Hi") (world_of cover) = (Ok out, w') ∧
    grid_at (heap w') out = Some g' ∧
    Forall2 (Forall2 (Forall2 (λ encoded original : Z,
      (Z.abs (encoded - original) ≤ 1)%Z ∧
      ((0 ≤ original ≤ 255)%Z → (0 ≤ encoded ≤ 255)%Z)))) g' cover.
Proof.
  apply (X8_encode_values_stay_in_range (world_of cover) (image_of cover)
           cover).
  vm_compute. reflexivity.
Defined.

Lemma X9_encode_overwrites_previous_message_witness :
  ∃ out1 w1 out2 w2 out w' g2,
    encode (image_of cover) (lit "Hi") (world_of cover) = (Ok out1, w1) ∧
    encode out1 (lit "yo") w1 = (Ok out2, w2) ∧
    grid_at (heap w2) out2 = Some g2 ∧
    encode (image_of cover) (lit "yo") (world_of cover) = (Ok out, w') ∧
    grid_at (heap w') out = Some g2.
Proof.
  apply (X9_encode_overwrites_previous_message (world_of cover)
           (image_of cover) cover).
  vm_compute. reflexivity.
Defined.

Lemma X10_message_to_bits_injective_witness : lit "Hi" = lit "Hi".
Proof.
  apply (X10_message_to_bits_injective (lit "Hi") (lit "Hi")). reflexivity.
Defined.

Lemma X12_decode_output_bounds_witness :
  ∃ msg w',
    decode (image_of cover) (world_of cover) = (Ok msg, w') ∧
    length msg ≤ capacity cover / 8 ∧
    (NUL ∉ msg) ∧
    heap w' = heap (world_of cover).
Proof.
  apply (X12_decode_output_bounds (world_of cover) (image_of cover) cover).
  vm_compute. reflexivity.
Defined.

Lemma X14_main_missing_file_witness :
  main (Namespace (lit "dog.png") None) demo_process =
  (Fails SystemExit,
   Process (mem demo_process) (files demo_process)
     (stdout demo_process ++ [lit "The file " ++ lit "dog.png"
                              ++ lit " was not found"])).
Proof.
  apply (X14_main_missing_file (Namespace (lit "dog.png") None) demo_process).
  - vm_compute. reflexivity.
  - vm_compute. reflexivity.
Defined.

Lemma X15_main_encode_writes_output_witness :
  ∃ p',
    main (Namespace (lit "cat.PNG") (Some (lit "Hi"))) demo_process
      = (Returns (), p') ∧
    files p' =
      <[make_output_filename (lit "cat.PNG")
        := embed_grid (message_to_bits (lit "Hi")) 0 cover]>
        (files demo_process) ∧
    files p' !! lit "cat.PNG" = Some cover ∧
    stdout p' =
      stdout demo_process
      ++ [lit "Encoded your message to "
          ++ make_output_filename (lit "cat.PNG")].
Proof.
  apply (X15_main_encode_writes_output (lit "cat.PNG") cover (lit "Hi")
           demo_process).
  - vm_compute. reflexivity.
  - vm_compute. reflexivity.
  - discriminate.
Defined.

Lemma X16_main_without_message_decodes_witness :
  ∃ p',
    main (Namespace (lit "cat.PNG") (Some [])) demo_process
      = (Returns (), p') ∧
    files p' = files demo_process ∧
    stdout p' =
      stdout demo_process
      ++ [lit "The file " ++ lit "cat.PNG"
          ++ lit " is encoded with the message:"
          ++ ["010"%char; "010"%char] ++ chars 3 (lsb_stream cover)].
Proof.
  apply (X16_main_without_message_decodes (lit "cat.PNG") cover (Some []) 3
           demo_process).
  - right. reflexivity.
  - vm_compute. reflexivity.
  - vm_compute. reflexivity.
  - split_and!.
    + vm_compute. lia.
    + intros i Hi. destruct i as [|[|[|i]]]; [by vm_compute..|lia].
    + intros Hlen. vm_compute in Hlen. lia.
Defined.

Lemma X17_main_end_to_end_witness :
  ∃ p1,
    main (Namespace (lit "cat.PNG") (Some (lit "Hi"))) demo_process
      = (Returns (), p1) ∧
    ∀ (mem2 : world) (out2 : list str),
      ∃ p2,
        main (Namespace (make_output_filename (lit "cat.PNG")) None)
          (Process mem2 (files p1) out2) = (Returns (), p2) ∧
        stdout p2 =
          out2 ++ [lit "The file " ++ make_output_filename (lit "cat.PNG")
                   ++ lit " is encoded with the message:"
                   ++ ["010"%char; "010"%char]
                   ++ take (capacity cover / 8) (before_nul (lit "Hi"))].
Proof.
  apply (X17_main_end_to_end (lit "cat.PNG") cover (lit "Hi") demo_process).
  - vm_compute. reflexivity.
  - vm_compute. reflexivity.
  - discriminate.
Defined.

Lemma X18_make_output_filename_replaces_extension_witness :
  make_output_filename (lit "a" ++ lit ".png") = lit "a" ++ lit "_encoded.png" ∧
  make_output_filename (lit "a" ++ lit ".png")
  = make_output_filename (lit "a" ++ lit ".PNG").
Proof.
  apply (X18_make_output_filename_replaces_extension (lit "a") (lit ".png")
           (lit ".PNG")); reflexivity.
Defined.
